(** * Ghost-text completion pipeline: a shallow embedding

    The development follows the Python modules of the repository:

    - [ai_completion_engine.py] (class [AICompletionEngine]): rate
      limiter, cache fingerprint, prompt, provider call and FIFO cache;
    - [code_editor.py] (class [CodeEditor]): trigger gate, ghost-text
      state, stale-response guard, dismissal, acceptance and the overlap
      resolver;
    - [launch.py]: the check of the configuration file.

    Text is a list of Unicode code points.  [str.strip] and [str.split]
    use the whitespace set of [str.isspace], which is written out in full.
    Of [str.lower] the model has the case table of U+0000..U+00FF and the
    code point U+0130, the only one whose lower-case form is two code
    points long; the case tables of the other scripts are not written out
    (their characters are left as they are), so what depends on the case
    of single characters is stated for Latin-1 text ([latin1]); what is
    stated for all text depends on [str.lower] only in that the lower-case
    form of a whitespace-delimited token of a text is a piece of the
    lower-case form of the text.  Wall-clock
    readings ([time.time()]) are binary64 numbers and the arithmetic on
    them is the machine's.  The Tk text widget, the completion provider
    and the constructor of its client are external collaborators: the
    widget is an interface (a type class), the other two are oracle
    arguments. *)

From Stdlib Require Import Ascii String ZArith QArith Floats.
From stdpp Require Import base option list strings gmap.

Local Open Scope list_scope.
Local Open Scope nat_scope.

(** ** Python strings *)

Module PyStr.

(** A Python [str]: a sequence of code points. *)
Abbreviation str := (list N) (only parsing).

(** A literal (of ASCII characters). *)
Definition py (s : string) : str := map N_of_ascii (list_ascii_of_string s).

(** The characters the code names: ['\n'] and [' ']. *)
Definition newline : N := 10.
Definition space : N := 32.

(** [str.isspace] on one character: TAB..CR, FS..US, SPACE, NEL, NBSP,
    U+1680, U+2000..U+200A, U+2028, U+2029, U+202F, U+205F and U+3000. *)
Definition is_space (c : N) : bool :=
  ((9 <=? c) && (c <=? 13) || (28 <=? c) && (c <=? 32)
   || (c =? 133) || (c =? 160) || (c =? 5760)
   || (8192 <=? c) && (c <=? 8202) || (c =? 8232) || (c =? 8233)
   || (c =? 8239) || (c =? 8287) || (c =? 12288))%N.

(** The lower-case form of a character, where that is one character:
    A..Z and the Latin-1 capitals U+00C0..U+00DE (except the
    multiplication sign U+00D7) move up by 32. *)
Definition to_lower (c : N) : N :=
  if ((65 <=? c) && (c <=? 90)
      || (192 <=? c) && (c <=? 222) && negb (c =? 215))%N
  then (c + 32)%N else c.

(** [str.lower] on one character: U+0130 (capital I with dot above)
    becomes the two code points U+0069 and U+0307. *)
Definition lower_char (c : N) : list N :=
  if (c =? 304)%N then [105; 775]%N else [to_lower c].

Definition lower (s : str) : str := concat (map lower_char s).

(** [s.startswith(p)] *)
Fixpoint startswith (s p : str) : bool :=
  match p, s with
  | [], _ => true
  | _ :: _, [] => false
  | a :: p', b :: s' => bool_decide (a = b) && startswith s' p'
  end.

(** [s.find(sub)]: index of the first occurrence; [None] stands for -1. *)
Fixpoint find (s sub : str) : option nat :=
  if startswith s sub then Some 0
  else match s with
       | [] => None
       | _ :: s' => S <$> find s' sub
       end.

(** [sub in s] *)
Definition contains (s sub : str) : bool :=
  if find s sub is Some _ then true else false.

(** [s.split()]: maximal runs of non-whitespace characters, in order.
    [tok] is the token being read. *)
Fixpoint split_go (tok s : str) : list str :=
  match s with
  | [] => if tok is [] then [] else [tok]
  | c :: s' =>
      if is_space c
      then (if tok is [] then split_go [] s' else tok :: split_go [] s')
      else split_go (tok ++ [c]) s'
  end.

Definition split (s : str) : list str := split_go [] s.

(** [s.lstrip()], [s.rstrip()], [s.strip()] *)
Fixpoint lstrip (s : str) : str :=
  match s with
  | c :: s' => if is_space c then lstrip s' else s
  | [] => []
  end.

Definition rstrip (s : str) : str := reverse (lstrip (reverse s)).

Definition strip (s : str) : str := rstrip (lstrip s).

(** [sep.join(parts)] *)
Fixpoint join (sep : str) (parts : list str) : str :=
  match parts with
  | [] => []
  | [p] => p
  | p :: ps => p ++ sep ++ join sep ps
  end.

(** [s.replace(c, '')] for a one-character [c]. *)
Definition remove_char (c : N) (s : str) : str :=
  filter (λ x, x ≠ c) s.

(** [l.index(w)]: position of the first element equal to [w]; Python
    raises [ValueError] when there is none, rendered here as [None]. *)
Fixpoint list_index (w : str) (l : list str) : option nat :=
  match l with
  | [] => None
  | x :: l' => if decide (x = w) then Some 0 else S <$> list_index w l'
  end.

(** Slices: [s[n:]] is [drop n s], [s[:n]] is [take n s] and
    [s[-n:]] is the last [n] characters (all of [s] when it is shorter). *)
Definition last_chars (n : nat) (s : str) : str := drop (length s - n) s.

(** Text within U+0000..U+00FF (Latin-1). *)
Definition latin1 (s : str) : Prop := Forall (λ c, (c < 256)%N) s.

End PyStr.
Import PyStr.

(** ** The overlap resolver ([CodeEditor._trim_completion_overlap]) *)

(** Strategy 3, the loop over [completion.split()]. *)
Fixpoint trim_token_loop (completion_words ws : list str)
    (current_word completion : str) : str :=
  match ws with
  | [] => completion (* Strategy 4 *)
  | word :: ws' =>
      if startswith (lower word) (lower current_word) then
        let remaining_of_word := drop (length current_word) word in
        match list_index word completion_words with
        | Some word_index =>
            let remaining_words := drop (word_index + 1) completion_words in
            if remaining_words is [] then remaining_of_word
            else remaining_of_word ++ py " " ++ join (py " ") remaining_words
        | None => completion (* not reached: [word] is in the list *)
        end
      else trim_token_loop completion_words ws' current_word completion
  end.

Definition _trim_completion_overlap (current_word completion : str) : str :=
  if current_word is [] then completion
  else if startswith (lower completion) (lower current_word)
  then drop (length current_word) completion
  else
    let completion_lower := lower completion in
    let current_word_lower := lower current_word in
    if contains completion_lower current_word_lower then
      match find completion_lower current_word_lower with
      | Some pos => drop (pos + length current_word) completion
      | None => completion (* not reached: the word is in there *)
      end
    else
      let completion_words := split completion in
      trim_token_loop completion_words completion_words current_word completion.

(** ** The completion engine ([AICompletionEngine]) *)

(** What [json.load] returns: [None], a [bool], an [int], a [float], a
    [str], a [list] or a [dict] with string keys. *)
#[warnings="-register-all"]
Inductive json : Type :=
  | JNull
  | JBool (b : bool)
  | JInt (z : Z)
  | JFloat (f : float)
  | JStr (s : str)
  | JList (l : list json)
  | JObject (d : gmap string json).

(** [config.get(key, default)] *)
Definition config_get (config : gmap string json) (key : string) (dflt : json) : json :=
  default dflt (config !! key).

(** Exceptions that cross a function boundary in the modelled code: a
    failed widget call, the comparison of a time with a delay that is not
    a number, and the read of a variable that is no longer bound.  What
    the provider raises is caught inside [get_completion] and is part of
    [ProviderOutcome] below. *)
Inductive exn : Type :=
  | TclError
  | TypeError
  | NameError.

Inductive result (A : Type) : Type :=
  | Ok (a : A)
  | Raise (e : exn).
Arguments Ok {A} a.
Arguments Raise {A} e.

(** A Python [dict] with string keys, in insertion order. *)
Module PyDict.

Abbreviation dict := (list (list N * list N)) (only parsing).

(** [key in d] *)
Definition mem (key : str) (d : dict) : bool :=
  existsb (λ kv, bool_decide (kv.1 = key)) d.

(** [d[key]] for a key that is present *)
Fixpoint get (key : str) (d : dict) : option str :=
  match d with
  | [] => None
  | (k, v) :: d' => if decide (k = key) then Some v else get key d'
  end.

(** [d[key] = value]: a present key keeps its place, a new key goes last. *)
Fixpoint set (key value : str) (d : dict) : dict :=
  match d with
  | [] => [(key, value)]
  | (k, v) :: d' =>
      if decide (k = key) then (k, value) :: d' else (k, v) :: set key value d'
  end.

(** [del d[key]] *)
Fixpoint del (key : str) (d : dict) : dict :=
  match d with
  | [] => []
  | (k, v) :: d' => if decide (k = key) then d' else (k, v) :: del key d'
  end.

(** [next(iter(d))]: the key inserted first. *)
Definition first_key (d : dict) : option str := fst <$> head d.

Definition keys (d : dict) : list str := d.*1.

End PyDict.

(** The message sent to the completion provider
    ([client.chat.completions.create]). *)
Record ChatRequest : Type := {
  req_model : json;
  req_system : str;
  req_user : str;
  req_max_tokens : json;
  req_temperature : json;
  req_stop : list str
}.

(** What the provider does with a request: it raises, or answers with a
    list of choices, each carrying [message.content] (possibly [None]). *)
Inductive ProviderOutcome : Type :=
  | PRaise (msg : str)
  | PResponse (choices : list (option str)).

Record AICompletionEngine : Type := {
  config : gmap string json;
  client : bool;                       (* [self.client] is set *)
  _last_request_time : float;
  _completion_cache : PyDict.dict;
  last_request_prompt : option str;
  last_response : option str;
  api_log : list ChatRequest           (* requests sent to the provider so far *)
}.

Definition set_last_request_time (t : float) (e : AICompletionEngine) :=
  {| config := config e; client := client e; _last_request_time := t;
     _completion_cache := _completion_cache e;
     last_request_prompt := last_request_prompt e;
     last_response := last_response e; api_log := api_log e |}.

Definition set_completion_cache (c : PyDict.dict) (e : AICompletionEngine) :=
  {| config := config e; client := client e;
     _last_request_time := _last_request_time e; _completion_cache := c;
     last_request_prompt := last_request_prompt e;
     last_response := last_response e; api_log := api_log e |}.

Definition set_last_request_prompt (p : option str) (e : AICompletionEngine) :=
  {| config := config e; client := client e;
     _last_request_time := _last_request_time e;
     _completion_cache := _completion_cache e; last_request_prompt := p;
     last_response := last_response e; api_log := api_log e |}.

Definition set_last_response (r : option str) (e : AICompletionEngine) :=
  {| config := config e; client := client e;
     _last_request_time := _last_request_time e;
     _completion_cache := _completion_cache e;
     last_request_prompt := last_request_prompt e;
     last_response := r; api_log := api_log e |}.

Definition log_request (r : ChatRequest) (e : AICompletionEngine) :=
  {| config := config e; client := client e;
     _last_request_time := _last_request_time e;
     _completion_cache := _completion_cache e;
     last_request_prompt := last_request_prompt e;
     last_response := last_response e; api_log := api_log e ++ [r] |}.

(** [AICompletionEngine.__init__] once the configuration is loaded and the
    client is set up.  The timestamp starts as the integer 0, which the
    first subtraction converts to the float 0.0. *)
Definition engine_init (cfg : gmap string json) : AICompletionEngine :=
  {| config := cfg; client := true; _last_request_time := 0%float;
     _completion_cache := []; last_request_prompt := None;
     last_response := None; api_log := [] |}.

(** [x < n] for a float [x] and an integer [n]: Python compares the two
    values exactly; a NaN is less than nothing. *)
Definition float_lt_int (x : float) (n : Z) : bool :=
  match Prim2SF x with
  | S754_nan => false
  | S754_infinity negative => negative
  | S754_zero _ => (0 <? n)%Z
  | S754_finite negative m e =>
      let v := if negative then Z.neg m else Z.pos m in
      if (0 <=? e)%Z then (v * 2 ^ e <? n)%Z else (v <? n * 2 ^ (- e))%Z
  end.

(** The values Python can compare with a float: [int], [bool] (a subclass
    of [int]) and [float]. *)
Definition is_number (value : json) : bool :=
  match value with
  | JInt _ | JBool _ | JFloat _ => true
  | _ => false
  end.

(** [x < value] for a float [x] and a value of the configuration: defined
    when the value is a number; otherwise Python raises [TypeError],
    rendered as [None]. *)
Definition float_lt (x : float) (value : json) : option bool :=
  match value with
  | JInt n => Some (float_lt_int x n)
  | JBool b => Some (float_lt_int x (if b then 1 else 0)%Z)
  | JFloat y => Some (x <? y)%float
  | _ => None
  end.


(** [_should_debounce]; [now] is the reading of [time.time()], in seconds. *)
Definition _should_debounce (now : float) (e : AICompletionEngine)
    : result bool * AICompletionEngine :=
  let current_time := (now * 1000)%float in
  let delay_ms := config_get (config e) "completion_delay_ms" (JInt 500) in
  match float_lt (current_time - _last_request_time e) delay_ms with
  | Some true => (Ok true, e)
  | Some false => (Ok false, set_last_request_time current_time e)
  | None => (Raise TypeError, e)
  end.

(** [_create_cache_key] *)
Definition _create_cache_key (context_before context_after cursor_line : str) : str :=
  let combined := last_chars 100 context_before ++ cursor_line ++ take 50 context_after in
  remove_char newline (remove_char space combined).

(** [_build_completion_prompt] *)
Definition _build_completion_prompt (context_before cursor_line context_after : str) : str :=
  py "You are an AI coding assistant. Complete the Python code at the cursor position.

Context before:
" ++ context_before ++ py "

Current line (cursor at end): " ++ cursor_line ++ py "

Context after:
" ++ context_after ++ py "

Complete the code at the cursor position. Provide only the completion text, no explanations.
Focus on:
1. Syntactically correct Python code
2. Following the existing code style and patterns
3. Completing the current statement or adding the next logical statement
4. Keeping the completion concise and relevant

Completion:".

(** The cache write at the end of a successful request: store, then drop
    the oldest entry when more than 50 are held. *)
Definition cache_store (cache_key completion : str) (cache : PyDict.dict) : PyDict.dict :=
  let cache := PyDict.set cache_key completion cache in
  if 50 <? length cache then
    match PyDict.first_key cache with
    | Some oldest_key => PyDict.del oldest_key cache
    | None => cache
    end
  else cache.

Definition chat_request (e : AICompletionEngine) (prompt : str) : ChatRequest :=
  {| req_model := config_get (config e) "model" (JStr (py "gpt-3.5-turbo"));
     req_system := py "You are a helpful Python code completion assistant.";
     req_user := prompt;
     req_max_tokens := config_get (config e) "max_tokens" (JInt 100);
     req_temperature := config_get (config e) "temperature" (JFloat 0x1.3333333333333p-2);
     req_stop := [ [ newline; newline ]; py "```" ] |}.

(** [get_completion].  [now] is the clock reading taken by the rate
    limiter and [respond] the provider's behaviour on this call. *)
Definition get_completion (now : float) (respond : ChatRequest → ProviderOutcome)
    (context_before cursor_line context_after : str) (e : AICompletionEngine)
    : result (option str) * AICompletionEngine :=
  let e := set_last_response None (set_last_request_prompt None e) in
  match _should_debounce now e with
  | (Raise x, e) => (Raise x, e)
  | (Ok true, e) => (Ok None, e)
  | (Ok false, e) =>
      let cache_key := _create_cache_key context_before context_after cursor_line in
      if PyDict.mem cache_key (_completion_cache e) then
        match PyDict.get cache_key (_completion_cache e) with
        | Some v => (Ok (Some v), e)
        | None => (Ok None, e) (* not reached: the key is in the cache *)
        end
      else
        (* try: *)
        let prompt := _build_completion_prompt context_before cursor_line context_after in
        let e := set_last_request_prompt (Some prompt) e in
        if negb (client e) then (Ok None, e)
        else
          let request := chat_request e prompt in
          let e := log_request request e in
          match respond request with
          | PRaise msg =>
              (* except Exception as e: *)
              (Ok None, set_last_response (Some (py "ERROR: " ++ msg)) e)
          | PResponse (Some ((_ :: _) as content) :: _) =>
              let completion := strip content in
              let e := set_last_response (Some completion) e in
              let e := set_completion_cache
                         (cache_store cache_key completion (_completion_cache e)) e in
              (Ok (Some completion), e)
          | PResponse _ =>
              (Ok None, set_last_response (Some (py "No completion received")) e)
          end
  end.

(** [get_last_chat_info] *)
Definition get_last_chat_info (e : AICompletionEngine) : option str * option str :=
  (last_request_prompt e, last_response e).

(** The delay the rate limiter reads from the configuration. *)
Definition delay_of (e : AICompletionEngine) : json :=
  config_get (config e) "completion_delay_ms" (JInt 500).

(** The engine as [get_completion] leaves it when the rate limiter
    suppresses the call. *)
Definition reset_chat (e : AICompletionEngine) : AICompletionEngine :=
  set_last_response None (set_last_request_prompt None e).

(** ** The text surface (Tk [Text] widget), an external collaborator *)

(** A resolved index ["line.col"]. *)
Record position : Type := Pos { pos_line : nat; pos_col : nat }.

Global Instance position_eq_dec : EqDecision position.
Proof. solve_decision. Defined.

(** The index expressions the editor builds. *)
Inductive tk_index : Type :=
  | INSERT                                (* [tk.INSERT] *)
  | At (p : position)                     (* ["l.c"] *)
  | LineEnd (l : nat)                     (* ["l.end"] *)
  | PlusChars (p : position) (n : nat)    (* ["l.c+nc"] *)
  | DocEnd                                (* ['end'] *)
  | DocEndMinus1c.                        (* ['end-1c'] *)

(** The widget operations used by the editor.  [None] is a [tk.TclError]. *)
Class TextWidget (W : Type) : Type := {
  w_index : W → tk_index → option position;
  w_get : W → tk_index → tk_index → option str;
  w_tag_names : W → tk_index → option (list string);
  w_delete : W → tk_index → tk_index → option W;
  w_insert : W → tk_index → str → list string → option W;
  w_mark_set_insert : W → tk_index → option W;
  w_tag_remove : W → string → tk_index → tk_index → option W
}.

(** ** The editor ([CodeEditor]) *)

Record CodeEditor (W : Type) : Type := {
  text_editor : W;
  ai_engine : option AICompletionEngine;
  ai_enabled_var : bool;
  current_completion : str;
  ghost_text_start_pos : option position;
  last_completion_request : float;
  status_label : str;
  ai_stats_label : option (nat * json)
}.
Arguments text_editor {W} _.
Arguments ai_engine {W} _.
Arguments ai_enabled_var {W} _.
Arguments current_completion {W} _.
Arguments ghost_text_start_pos {W} _.
Arguments last_completion_request {W} _.
Arguments status_label {W} _.
Arguments ai_stats_label {W} _.

(** What a worker thread schedules on the interaction thread
    ([root.after(0, ...)]).  [CompletionErrorStatus] is the function
    scheduled by the exception handler of the worker,
    [lambda: self.update_status(f"Completion error: {str(e)}")]: it reads
    the handler's variable [e] when it is run. *)
Inductive Callback : Type :=
  | UpdateChatRequest (request_text : str)
  | UpdateChatResponse (response_text : str)
  | ShowCompletion (completion : str) (cursor_pos : position)
  | UpdateStatus (message : str)
  | CompletionErrorStatus.

(** Arguments of the worker thread started by [request_ai_completion]. *)
Record ThreadArgs : Type := {
  arg_context_before : str;
  arg_current_line : str;
  arg_context_after : str;
  arg_cursor_pos : position
}.

Section Editor.
Context {W : Type} `{TW : TextWidget W}.

Definition with_text_editor (w : W) (ed : CodeEditor W) : CodeEditor W :=
  {| text_editor := w; ai_engine := ai_engine ed;
     ai_enabled_var := ai_enabled_var ed;
     current_completion := current_completion ed;
     ghost_text_start_pos := ghost_text_start_pos ed;
     last_completion_request := last_completion_request ed;
     status_label := status_label ed; ai_stats_label := ai_stats_label ed |}.

Definition with_ai_engine (e : option AICompletionEngine) (ed : CodeEditor W) : CodeEditor W :=
  {| text_editor := text_editor ed; ai_engine := e;
     ai_enabled_var := ai_enabled_var ed;
     current_completion := current_completion ed;
     ghost_text_start_pos := ghost_text_start_pos ed;
     last_completion_request := last_completion_request ed;
     status_label := status_label ed; ai_stats_label := ai_stats_label ed |}.

(** Assignment of the two suggestion fields, [ghost_text_start_pos] first
    and [current_completion] second, with nothing in between. *)
Definition with_suggestion (p : option position) (c : str) (ed : CodeEditor W) : CodeEditor W :=
  {| text_editor := text_editor ed; ai_engine := ai_engine ed;
     ai_enabled_var := ai_enabled_var ed;
     current_completion := c; ghost_text_start_pos := p;
     last_completion_request := last_completion_request ed;
     status_label := status_label ed; ai_stats_label := ai_stats_label ed |}.

Definition with_last_completion_request (t : float) (ed : CodeEditor W) : CodeEditor W :=
  {| text_editor := text_editor ed; ai_engine := ai_engine ed;
     ai_enabled_var := ai_enabled_var ed;
     current_completion := current_completion ed;
     ghost_text_start_pos := ghost_text_start_pos ed;
     last_completion_request := t;
     status_label := status_label ed; ai_stats_label := ai_stats_label ed |}.

Definition with_status (m : str) (ed : CodeEditor W) : CodeEditor W :=
  {| text_editor := text_editor ed; ai_engine := ai_engine ed;
     ai_enabled_var := ai_enabled_var ed;
     current_completion := current_completion ed;
     ghost_text_start_pos := ghost_text_start_pos ed;
     last_completion_request := last_completion_request ed;
     status_label := m; ai_stats_label := ai_stats_label ed |}.

Definition with_ai_stats (s : option (nat * json)) (ed : CodeEditor W) : CodeEditor W :=
  {| text_editor := text_editor ed; ai_engine := ai_engine ed;
     ai_enabled_var := ai_enabled_var ed;
     current_completion := current_completion ed;
     ghost_text_start_pos := ghost_text_start_pos ed;
     last_completion_request := last_completion_request ed;
     status_label := status_label ed; ai_stats_label := s |}.

(** [CodeEditor.__init__], once the engine and the widgets exist.  The
    time of the last request starts as the integer 0, which the first
    subtraction converts to the float 0.0. *)
Definition editor_init (w : W) (engine : option AICompletionEngine) : CodeEditor W :=
  {| text_editor := w; ai_engine := engine;
     ai_enabled_var := if engine is Some _ then true else false;
     current_completion := []; ghost_text_start_pos := None;
     last_completion_request := 0%float;
     status_label := py "Ready - Start typing Python code for AI completions!";
     ai_stats_label := None |}.

(** Methods run on the editor state and either return or raise. *)
Definition M (A : Type) : Type := CodeEditor W → result A * CodeEditor W.

Definition ret {A} (a : A) : M A := λ ed, (Ok a, ed).

Definition bind {A B} (m : M A) (k : A → M B) : M B :=
  λ ed, match m ed with
        | (Ok a, ed') => k a ed'
        | (Raise x, ed') => (Raise x, ed')
        end.

Notation "x ←← m ; k" := (bind m (λ x, k))
  (at level 20, m at level 100, k at level 200, only parsing).
Notation "m ;;; k" := (bind m (λ _, k))
  (at level 100, k at level 200, right associativity, only parsing).

(** A query of the text widget. *)
Definition ask {A} (q : W → option A) : M A :=
  λ ed, match q (text_editor ed) with
        | Some a => (Ok a, ed)
        | None => (Raise TclError, ed)
        end.

(** A command to the text widget. *)
Definition tell (c : W → option W) : M unit :=
  λ ed, match c (text_editor ed) with
        | Some w => (Ok tt, with_text_editor w ed)
        | None => (Raise TclError, ed)
        end.

Definition modify (f : CodeEditor W → CodeEditor W) : M unit :=
  λ ed, (Ok tt, f ed).

(** Reading an attribute of [self]. *)
Definition gets {A} (f : CodeEditor W → A) : M A :=
  λ ed, (Ok (f ed), ed).

Definition update_status (message : str) : M unit := modify (with_status message).

(** The truth value of [self.ghost_text_start_pos and self.current_completion]. *)
Definition suggestion_active (ed : CodeEditor W) : bool :=
  match ghost_text_start_pos ed, current_completion ed with
  | Some _, _ :: _ => true
  | _, _ => false
  end.

(** [clear_ghost_text] *)
Definition clear_ghost_text : M unit :=
  λ ed,
    match ghost_text_start_pos ed, current_completion ed with
    | Some start, _ :: _ =>
        let completion := current_completion ed in
        let end_pos := PlusChars start (length completion) in
        let w := text_editor ed in
        let w' :=
          (* try: *)
          match w_get w (At start) end_pos with
          | None => w
          | Some actual_text =>
              match w_tag_names w (At start) with
              | None => w
              | Some tags =>
                  if bool_decide ("ghost_text"%string ∈ tags)
                     && bool_decide (actual_text = completion)
                  then match w_delete w (At start) end_pos with
                       | Some w' => w'
                       | None => w
                       end
                  else w
              end
          end in
        (Ok tt, with_suggestion None [] (with_text_editor w' ed))
    | _, _ => (Ok tt, ed)
    end.

(** [accept_completion] *)
Definition accept_completion : M unit :=
  λ ed,
    match current_completion ed, ghost_text_start_pos ed with
    | _ :: _, Some start =>
        let end_pos := PlusChars start (length (current_completion ed)) in
        (tell (λ w, w_tag_remove w "ghost_text" (At start) end_pos) ;;;
         tell (λ w, w_mark_set_insert w end_pos) ;;;
         modify (with_suggestion None []) ;;;
         update_status (py "Completion accepted!")) ed
    | _, _ => (Ok tt, ed)
    end.

(** The loop [for line_num in ...: get(line.0, line.end); keep if not blank]. *)
Fixpoint collect_lines (line_nums : list nat) : M (list str) :=
  match line_nums with
  | [] => ret []
  | line_num :: rest =>
      line_content ←← ask (λ w, w_get w (At (Pos line_num 0)) (LineEnd line_num));
      lines ←← collect_lines rest;
      ret (if strip line_content is [] then lines else line_content :: lines)
  end.

(** Same line test of [get_context_around_cursor] and
    [request_ai_completion]: the anchor, when one is set on the cursor's line. *)
Definition anchor_on_line (ghost_text_start_pos : option position)
    (cursor_line_num : nat) : option position :=
  match ghost_text_start_pos with
  | Some g => if decide (pos_line g = cursor_line_num) then Some g else None
  | None => None
  end.

(** [get_context_around_cursor] *)
Definition get_context_around_cursor : M (str * str * str) :=
  cursor_pos ←← ask (λ w, w_index w INSERT);
  let cursor_line_num := pos_line cursor_pos in
  let line_start := At (Pos cursor_line_num 0) in
  ghost ←← gets ghost_text_start_pos;
  current_line ←←
    match anchor_on_line ghost cursor_line_num with
    | Some g => ask (λ w, w_get w line_start (At g))
    | None => ask (λ w, w_get w line_start (At cursor_pos))
    end;
  let start_line := max 1 (cursor_line_num - 10) in
  lines_before ←← collect_lines (seq start_line (cursor_line_num - start_line));
  let context_before :=
    join [ newline ] (drop (length lines_before - 10) lines_before) in
  last ←← ask (λ w, w_index w DocEndMinus1c);
  let total_lines := pos_line last in
  let end_line := min total_lines (cursor_line_num + 5) in
  lines_after ←← collect_lines (seq (cursor_line_num + 1) (end_line - cursor_line_num));
  let context_after := join [ newline ] (take 5 lines_after) in
  ret (context_before, current_line, context_after).

(** The column the editor takes for the end of the cursor's line. *)
Definition logical_line_end_col (cursor_line_num : nat) : M nat :=
  ghost ←← gets ghost_text_start_pos;
  match anchor_on_line ghost cursor_line_num with
  | Some g => ret (pos_col g)
  | None =>
      actual_line_end ←← ask (λ w, w_index w (LineEnd cursor_line_num));
      ret (pos_col actual_line_end)
  end.

(** [request_ai_completion]; [now] is its reading of [time.time()].  The
    result is the argument tuple of the worker thread it starts, if any. *)
Definition request_ai_completion (now : float) : M (option ThreadArgs) :=
  engine ←← gets ai_engine;
  enabled ←← gets ai_enabled_var;
  if negb (if engine is Some _ then true else false) || negb enabled
  then ret None
  else
  last ←← gets last_completion_request;
  if (now - last <? 0.5)%float then ret None
  else
    modify (with_last_completion_request now) ;;;
    ctx ←← get_context_around_cursor;
    let '(context_before, current_line, context_after) := ctx in
    cursor_pos ←← ask (λ w, w_index w INSERT);
    let cursor_line_num := pos_line cursor_pos in
    let cursor_col_num := pos_col cursor_pos in
    logical_end ←← logical_line_end_col cursor_line_num;
    if length (strip current_line) <? 1 then ret None
    else if (Z.of_nat cursor_col_num <? Z.of_nat logical_end - 1)%Z then ret None
    else
      update_status (py "Requesting AI completion...") ;;;
      ret (Some {| arg_context_before := context_before;
                   arg_current_line := current_line;
                   arg_context_after := context_after;
                   arg_cursor_pos := cursor_pos |}).

(** [_get_completion_async], the body of the worker thread.  It reads the
    engine the editor holds and returns what it scheduled. *)
Definition _get_completion_async (now : float) (respond : ChatRequest → ProviderOutcome)
    (args : ThreadArgs) (ed : CodeEditor W) : list Callback * CodeEditor W :=
  match ai_engine ed with
  | None => ([], ed)
  | Some engine =>
      (* try: *)
      match get_completion now respond (arg_context_before args)
              (arg_current_line args) (arg_context_after args) engine with
      | (Ok completion, engine') =>
          let '(request_prompt, response_text) := get_last_chat_info engine' in
          let c1 := if request_prompt is Some ((_ :: _) as p) then [UpdateChatRequest p] else [] in
          let c2 := if response_text is Some ((_ :: _) as r) then [UpdateChatResponse r] else [] in
          let c3 :=
            match completion with
            | Some c =>
                if strip c is [] then [UpdateStatus (py "No completion available")]
                else [ShowCompletion c (arg_cursor_pos args)]
            | None => [UpdateStatus (py "No completion available")]
            end in
          (c1 ++ c2 ++ c3, with_ai_engine (Some engine') ed)
      | (Raise _, engine') =>
          (* except Exception as e: *)
          ([CompletionErrorStatus], with_ai_engine (Some engine') ed)
      end
  end.

(** [_update_ai_stats] *)
Definition _update_ai_stats : M unit :=
  modify (λ ed,
    match ai_engine ed with
    | Some e =>
        with_ai_stats
          (Some (length (_completion_cache e),
                 config_get (config e) "model" (JStr (py "gpt-3.5-turbo")))) ed
    | None => ed
    end).

(** [_show_completion] *)
Definition _show_completion (completion : str) (cursor_pos : position) : M unit :=
  current_cursor_pos ←← ask (λ w, w_index w INSERT);
  if negb (bool_decide (current_cursor_pos = cursor_pos)) then ret tt
  else
    clear_ghost_text ;;;
    let completion := strip completion in
    if completion is [] then ret tt
    else
      let cursor_line_num := pos_line cursor_pos in
      let line_start := At (Pos cursor_line_num 0) in
      current_line_text ←← ask (λ w, w_get w line_start (At cursor_pos));
      let words := split current_line_text in
      let current_word := default [] (last words) in
      let trimmed_completion := _trim_completion_overlap current_word completion in
      if trimmed_completion is [] then ret tt
      else
        tell (λ w, w_insert w (At cursor_pos) trimmed_completion ["ghost_text"%string]) ;;;
        modify (with_suggestion (Some cursor_pos) trimmed_completion) ;;;
        tell (λ w, w_mark_set_insert w (At cursor_pos)) ;;;
        update_status (py "Completion ready - Press Tab to accept, or keep typing to dismiss") ;;;
        _update_ai_stats.

(** [on_key_press] *)
Definition on_key_press (keysym : string) : M unit :=
  let content_changing_keys := ["Return"; "BackSpace"; "Delete"; "space"]%string in
  let is_content_key :=
    bool_decide (String.length keysym = 1) || bool_decide (keysym ∈ content_changing_keys) in
  let navigation_and_modifier_keys :=
    ["Home"; "End"; "Page_Up"; "Page_Down"; "Control_L"; "Control_R";
     "Shift_L"; "Shift_R"; "Alt_L"; "Alt_R"; "Escape"; "Tab"; "Caps_Lock";
     "Num_Lock"; "Scroll_Lock"; "F1"; "F2"; "F3"; "F4"; "F5"; "F6"; "F7";
     "F8"; "F9"; "F10"; "F11"; "F12"]%string in
  let arrows := ["Up"; "Down"; "Left"; "Right"]%string in
  (if bool_decide (keysym ∈ arrows)
   then (active ←← gets suggestion_active;
         if active then clear_ghost_text else ret tt)
   else ret tt) ;;;
  let is_content_key :=
    if negb (bool_decide (keysym ∈ arrows))
       && bool_decide (keysym ∈ navigation_and_modifier_keys)
    then false else is_content_key in
  active ←← gets suggestion_active;
  if is_content_key && active then clear_ghost_text else ret tt.

(** [on_click] *)
Definition on_click : M unit := clear_ghost_text.

(** [on_tab_key]; [true] stands for the ["break"] that stops Tk's own Tab. *)
Definition on_tab_key : M bool :=
  active ←← gets suggestion_active;
  if active then accept_completion ;;; ret true else ret false.

(** [new_file] *)
Definition new_file : M unit :=
  tell (λ w, w_delete w (At (Pos 1 0)) DocEnd) ;;;
  clear_ghost_text ;;;
  update_status (py "New file created").

(** [try: ... except Exception: messagebox.showerror(...)]: whatever the
    body raises is shown in a dialog and goes no further. *)
Definition guarded {A} (m : M A) : M (option A) :=
  λ ed, match m ed with
        | (Ok a, ed') => (Ok (Some a), ed')
        | (Raise _, ed') => (Ok None, ed')
        end.

(** [open_file], for a file the user picked and whose [content] was read. *)
Definition open_file (file_path content : str) : M (option unit) :=
  guarded (
    tell (λ w, w_delete w (At (Pos 1 0)) DocEnd) ;;;
    tell (λ w, w_insert w (At (Pos 1 0)) content []) ;;;
    clear_ghost_text ;;;
    (* update_line_numbers reads the number of lines *)
    ask (λ w, w_index w DocEndMinus1c) ;;;
    update_status (py "Opened: " ++ file_path)).

(** [save_file], for a path the user picked; the result is the text
    written to the file. *)
Definition save_file (file_path : str) : M (option str) :=
  guarded (
    content ←← ask (λ w, w_get w (At (Pos 1 0)) DocEndMinus1c);
    ghost ←← gets ghost_text_start_pos;
    content ←←
      (if ghost is Some _ then
         cursor_pos ←← ask (λ w, w_index w INSERT);
         clear_ghost_text ;;;
         tell (λ w, w_mark_set_insert w (At cursor_pos)) ;;;
         ask (λ w, w_get w (At (Pos 1 0)) DocEndMinus1c)
       else ret content);
    update_status (py "Saved: " ++ file_path) ;;;
    ret content).

(** Running a scheduled callback on the interaction thread.  The chat
    panes are display only and carry no state of the pipeline.  By the
    time the interaction thread runs the function scheduled by the
    worker's exception handler, the handler has ended and Python has
    unbound its variable [e], so the read of [e] raises [NameError] before
    [update_status] is called. *)
Definition run_callback (cb : Callback) : M unit :=
  match cb with
  | UpdateChatRequest _ => ret tt
  | UpdateChatResponse _ => ret tt
  | ShowCompletion completion cursor_pos => _show_completion completion cursor_pos
  | UpdateStatus message => update_status message
  | CompletionErrorStatus => λ ed, (Raise NameError, ed)
  end.

End Editor.

(** ** A reference text surface

    A small executable text widget: the characters of the document, each
    with a flag for the [ghost_text] tag, and the offset of the insertion
    cursor.  Indices resolve as in Tk (columns clamp to the line, offsets
    to the document), so no operation raises. *)

Module FlatText.

Record t : Type := Make { chars : list (N * bool); insert_mark : nat }.

Definition text (w : t) : str := (chars w).*1.

Definition is_newline (c : N) : bool := bool_decide (c = newline).

(** Offset at which the line [n] lines further down starts. *)
Fixpoint line_offset (n : nat) (s : str) {struct s} : nat :=
  match n, s with
  | 0, _ => 0
  | _, [] => 0
  | S n', c :: s' => S (line_offset (if is_newline c then n' else n) s')
  end.

Fixpoint line_len (s : str) : nat :=
  match s with
  | [] => 0
  | c :: s' => if is_newline c then 0 else S (line_len s')
  end.

Definition offset_of_pos (s : str) (p : position) : nat :=
  let o := line_offset (pos_line p - 1) s in
  o + min (pos_col p) (line_len (drop o s)).

Definition pos_of_offset (s : str) (o : nat) : position :=
  let before := take o s in
  Pos (1 + length (filter (λ c, c = newline) before))
      (line_len (reverse before)).

Definition resolve (w : t) (i : tk_index) : nat :=
  let s := text w in
  match i with
  | INSERT => min (insert_mark w) (length s)
  | At p => offset_of_pos s p
  | LineEnd l =>
      let o := line_offset (l - 1) s in o + line_len (drop o s)
  | PlusChars p n => min (offset_of_pos s p + n) (length s)
  | DocEnd => length s
  | DocEndMinus1c => length s
  end.

Definition index (w : t) (i : tk_index) : option position :=
  Some (pos_of_offset (text w) (resolve w i)).

Definition get (w : t) (i j : tk_index) : option str :=
  let a := resolve w i in
  Some (take (resolve w j - a) (drop a (text w))).

Definition tag_names (w : t) (i : tk_index) : option (list string) :=
  match chars w !! resolve w i with
  | Some (_, true) => Some ["ghost_text"%string]
  | _ => Some []
  end.

Definition delete (w : t) (i j : tk_index) : option t :=
  let a := resolve w i in
  let b := max a (resolve w j) in
  let m := insert_mark w in
  Some (Make (take a (chars w) ++ drop b (chars w))
             (if b <=? m then m - (b - a) else if a <? m then a else m)).

(** The insertion cursor has right gravity: text inserted at the cursor
    pushes it to the right. *)
Definition insert (w : t) (i : tk_index) (s : str) (tags : list string) : option t :=
  let a := resolve w i in
  let flag := bool_decide ("ghost_text"%string ∈ tags) in
  let m := insert_mark w in
  Some (Make (take a (chars w) ++ map (λ c, (c, flag)) s ++ drop a (chars w))
             (if a <=? m then m + length s else m)).

Definition mark_set_insert (w : t) (i : tk_index) : option t :=
  Some (Make (chars w) (resolve w i)).

Definition tag_remove (w : t) (tag : string) (i j : tk_index) : option t :=
  let a := resolve w i in
  let b := max a (resolve w j) in
  if decide (tag = "ghost_text"%string) then
    Some (Make (take a (chars w)
                ++ map (λ cf, (cf.1, false)) (take (b - a) (drop a (chars w)))
                ++ drop b (chars w))
               (insert_mark w))
  else Some w.

(** A document of plain text with the cursor at [p]. *)
Definition plain (s : string) (p : position) : t :=
  let cs := py s in
  Make (map (λ c, (c, false)) cs) (offset_of_pos cs p).

End FlatText.

Global Instance flat_text_widget : TextWidget FlatText.t := {
  w_index := FlatText.index;
  w_get := FlatText.get;
  w_tag_names := FlatText.tag_names;
  w_delete := FlatText.delete;
  w_insert := FlatText.insert;
  w_mark_set_insert := FlatText.mark_set_insert;
  w_tag_remove := FlatText.tag_remove
}.

Definition demo_engine : AICompletionEngine := engine_init ∅.

(** An editor on the reference surface holding [s], cursor at [p]. *)
Definition demo_editor (s : string) (p : position) : CodeEditor FlatText.t :=
  editor_init (FlatText.plain s p) (Some demo_engine).


(** ** Events of the interaction thread *)

(** What can happen to an editor between two moments: the handlers bound
    in [_setup_bindings], the scheduled callbacks, the trigger, the worker
    thread's body, and the text widget's own reaction to the user (typing,
    cursor keys), which changes the widget and nothing else. *)
Inductive event (W : Type) : Type :=
  | EvKeyPress (keysym : string)
  | EvClick
  | EvTab
  | EvNewFile
  | EvOpenFile (file_path content : str)
  | EvSaveFile (file_path : str)
  | EvTrigger (now : float)
  | EvWorker (now : float) (respond : ChatRequest → ProviderOutcome) (args : ThreadArgs)
  | EvCallback (cb : Callback)
  | EvClear
  | EvAccept
  | EvWidget (edit : W → W).
Arguments EvKeyPress {W} keysym.
Arguments EvClick {W}.
Arguments EvTab {W}.
Arguments EvNewFile {W}.
Arguments EvOpenFile {W} file_path content.
Arguments EvSaveFile {W} file_path.
Arguments EvTrigger {W} now.
Arguments EvWorker {W} now respond args.
Arguments EvCallback {W} cb.
Arguments EvClear {W}.
Arguments EvAccept {W}.
Arguments EvWidget {W} edit.

Section Events.
Context {W : Type} `{TW : TextWidget W}.

(** The editor after an event; an exception raised by a handler is
    reported by Tk and leaves the state where the handler stopped. *)
Definition handle (ev : event W) (ed : CodeEditor W) : CodeEditor W :=
  match ev with
  | EvKeyPress keysym => (on_key_press keysym ed).2
  | EvClick => (on_click ed).2
  | EvTab => (on_tab_key ed).2
  | EvNewFile => (new_file ed).2
  | EvOpenFile file_path content => (open_file file_path content ed).2
  | EvSaveFile file_path => (save_file file_path ed).2
  | EvTrigger now => (request_ai_completion now ed).2
  | EvWorker now respond args => (_get_completion_async now respond args ed).2
  | EvCallback cb => (run_callback cb ed).2
  | EvClear => (clear_ghost_text ed).2
  | EvAccept => (accept_completion ed).2
  | EvWidget edit => with_text_editor (edit (text_editor ed)) ed
  end.

Definition run (evs : list (event W)) (ed : CodeEditor W) : CodeEditor W :=
  foldl (λ ed ev, handle ev ed) ed evs.

(** States an editor can be in. *)
Inductive reachable : CodeEditor W → Prop :=
  | reach_init w engine : reachable (editor_init w engine)
  | reach_step ev ed : reachable ed → reachable (handle ev ed).

End Events.

(** States an engine can be in: created from a configuration, then used
    through [get_completion] only. *)
Inductive engine_reachable : AICompletionEngine → Prop :=
  | engine_reach_init cfg : engine_reachable (engine_init cfg)
  | engine_reach_call now respond cb cl ca e :
      engine_reachable e →
      engine_reachable (get_completion now respond cb cl ca e).2.

(** ** The statements of the specification, in its own words *)

Module Spec.

(** *** Overlap resolution (section 4.6) *)

(** [s] starts with [w] up to case, and [r] is what follows that prefix. *)
Definition starts_with (s w r : str) : Prop :=
  ∃ p, s = p ++ r ∧ lower p = lower w.

(** [w] occurs in [s] at offset [i] up to case, and [r] is what follows
    that occurrence. *)
Definition occurs_at (s w : str) (i : nat) (r : str) : Prop :=
  ∃ pre p, s = pre ++ p ++ r ∧ length pre = i ∧ lower p = lower w.

Definition no_prefix (s w : str) : Prop := ∀ r, ¬ starts_with s w r.
Definition no_occurrence (s w : str) : Prop := ∀ i r, ¬ occurs_at s w i r.

(** The resolution order, first match wins. *)
Inductive resolve (currentWord rawCompletion : str) : str → Prop :=
  | rule0 :
      currentWord = [] →
      resolve currentWord rawCompletion rawCompletion
  | rule1 r :
      currentWord ≠ [] →
      starts_with rawCompletion currentWord r →
      resolve currentWord rawCompletion r
  | rule2 i r :
      currentWord ≠ [] →
      no_prefix rawCompletion currentWord →
      occurs_at rawCompletion currentWord i r →
      (∀ j r', j < i → ¬ occurs_at rawCompletion currentWord j r') →
      resolve currentWord rawCompletion r
  | rule3 before token after r :
      currentWord ≠ [] →
      no_prefix rawCompletion currentWord →
      no_occurrence rawCompletion currentWord →
      split rawCompletion = before ++ token :: after →
      (∀ t, t ∈ before → no_prefix t currentWord) →
      starts_with token currentWord r →
      resolve currentWord rawCompletion (r ++ py " " ++ join (py " ") after)
  | rule4 :
      currentWord ≠ [] →
      no_prefix rawCompletion currentWord →
      no_occurrence rawCompletion currentWord →
      (∀ t, t ∈ split rawCompletion → no_prefix t currentWord) →
      resolve currentWord rawCompletion rawCompletion.

(** *** The cache (sections 3, 4.2 and 8) *)

(** The [c] most recently inserted of a sequence of insertions. *)
Definition most_recent (c : nat) (entries : list (str * str)) : list (str * str) :=
  drop (length entries - c) entries.

(** The configured capacity, [cacheCapacity] with default 50. *)
Definition cacheCapacity (cfg : gmap string json) : json :=
  config_get cfg "cacheCapacity" (JInt 50).

(** The cache of an engine stays within the configured capacity. *)
Definition within_configured_capacity (e : AICompletionEngine) : Prop :=
  ∀ c : nat, cacheCapacity (config e) = JInt (Z.of_nat c) →
             length (_completion_cache e) ≤ c.

(** *** The fingerprint (section 3) *)

(** Whitespace normalised out: every whitespace character removed. *)
Definition normalize_whitespace (s : str) : str :=
  filter (λ c, is_space c = false) s.

(** *** The trigger gate (section 4.5) *)

(** The cursor is within one character of column [logical_end]. *)
Definition within_one_character (cursor_col logical_end : nat) : Prop :=
  cursor_col ≤ logical_end + 1 ∧ logical_end ≤ cursor_col + 1.

End Spec.

(** Insertions into the cache, one after the other. *)
Definition cache_run (entries : list (str * str)) (cache : PyDict.dict) : PyDict.dict :=
  foldl (λ c kv, cache_store kv.1 kv.2 c) cache entries.

(** What [_create_cache_key] removes: spaces and newlines. *)
Definition drop_spaces_newlines (s : str) : str :=
  remove_char newline (remove_char space s).

Section Invariant.
Context {W : Type}.

(** The two suggestion fields of an editor. *)
Definition suggestion (ed : CodeEditor W) : option position * str :=
  (ghost_text_start_pos ed, current_completion ed).

(** The anchor is unset exactly when the suggestion text is empty. *)
Definition suggestion_consistent (ed : CodeEditor W) : Prop :=
  ghost_text_start_pos ed = None ↔ current_completion ed = [].

(** How an operation may move the suggestion fields: not at all, clear
    both, or set both with a text that is not empty. *)
Definition moves_together (ed ed' : CodeEditor W) : Prop :=
  suggestion ed' = suggestion ed
  ∨ suggestion ed' = (None, [])
  ∨ ∃ p t, t ≠ [] ∧ suggestion ed' = (Some p, t).

(** A method that moves the suggestion fields in that way only, however
    it ends. *)
Definition together {A} (m : M (W:=W) A) : Prop :=
  ∀ ed, moves_together ed (m ed).2.

(** A method that only looks: it leaves the editor as it is, and its
    answer depends on the text widget and the anchor alone. *)
Definition is_query {A} (m : M (W:=W) A) : Prop :=
  (∀ ed, (m ed).2 = ed)
  ∧ (∀ ed ed', text_editor ed = text_editor ed' →
               ghost_text_start_pos ed = ghost_text_start_pos ed' →
               (m ed).1 = (m ed').1).

End Invariant.

(** ** Further methods of the engine, the editor and the launcher *)

(** Truth value of a configuration value ([not api_key]). *)
Definition truthy (j : json) : bool :=
  match j with
  | JNull => false
  | JBool b => b
  | JInt z => negb (z =? 0)%Z
  | JFloat f => negb (PrimFloat.eqb f 0%float)
  | JStr s => if s is [] then false else true
  | JList l => if l is [] then false else true
  | JObject d => if map_to_list d is [] then false else true
  end.

Definition placeholder_key : list N := py "your-openai-api-key-here".

(** [value == "your-openai-api-key-here"] *)
Definition is_placeholder (j : json) : bool :=
  match j with
  | JStr s => bool_decide (s = placeholder_key)
  | _ => false
  end.

(** [len(value)] is defined on a [str], a [list] and a [dict]; on the
    other values it raises [TypeError]. *)
Definition has_len (j : json) : bool :=
  match j with
  | JStr _ | JList _ | JObject _ => true
  | _ => false
  end.

(** [config.get(...)] is defined on a [dict]; on the other values the
    attribute lookup raises [AttributeError]. *)
Definition as_dict (config : json) : option (gmap string json) :=
  match config with
  | JObject d => Some d
  | _ => None
  end.

(** How [_setup_openai_client] ends: the client is set; or
    [self.config.get] raises [AttributeError]; or the method raises
    [Exception("Please set your OpenAI API key in config.json")]; or
    [len(api_key)] raises [TypeError]; or the constructor of the client
    raises. *)
Inductive setup_outcome : Type :=
  | ClientSet
  | ConfigAttributeError
  | KeyNotSet
  | KeyTypeError
  | ClientError.

(** [_setup_openai_client], on the loaded configuration.  [OpenAI] is the
    constructor of the client, [OpenAI(api_key=...)]: whether it returns a
    client for this key or raises. *)
Definition _setup_openai_client (OpenAI : json → bool) (config : json) : setup_outcome :=
  match as_dict config with
  | None => ConfigAttributeError
  | Some d =>
      let api_key := config_get d "openai_api_key" JNull in
      if negb (truthy api_key) || is_placeholder api_key then KeyNotSet
      else if negb (has_len api_key) then KeyTypeError
      else if OpenAI api_key then ClientSet else ClientError
  end.

(** [AICompletionEngine.__init__], once [_load_config] has parsed the file. *)
Definition engine_new (OpenAI : json → bool) (config : json)
    : setup_outcome + AICompletionEngine :=
  match as_dict config, _setup_openai_client OpenAI config with
  | Some d, ClientSet => inr (engine_init d)
  | _, failure => inl failure
  end.

(** [get_stats] *)
Record Stats : Type := {
  cache_size : nat;
  stats_model : json;
  stats_max_tokens : json;
  stats_completion_delay_ms : json
}.

Definition get_stats (e : AICompletionEngine) : Stats :=
  {| cache_size := length (_completion_cache e);
     stats_model := config_get (config e) "model" (JStr (py "gpt-3.5-turbo"));
     stats_max_tokens := config_get (config e) "max_tokens" (JInt 100);
     stats_completion_delay_ms := config_get (config e) "completion_delay_ms" (JInt 500) |}.

(** [check_config] of [launch.py], for a configuration file that exists
    and parses.  On a configuration that is not a [dict] the lookup raises
    [AttributeError], which the function catches ([except Exception]). *)
Definition check_config (config : json) : bool :=
  match as_dict config with
  | None => false
  | Some d =>
      let api_key := config_get d "openai_api_key" (JStr []) in
      if negb (truthy api_key) || is_placeholder api_key then false else true
  end.

(** [s.split(sep)] for a one-character separator: the pieces between the
    separators, empty pieces included. *)
Fixpoint split_on (sep : N) (s : list N) : list (list N) :=
  match s with
  | [] => [[]]
  | c :: s' =>
      if decide (c = sep) then [] :: split_on sep s'
      else match split_on sep s' with
           | piece :: pieces => (c :: piece) :: pieces
           | [] => [[c]]
           end
  end.

(** The test of [_truncate_request_message] on one line. *)
Definition mentions_no_explanations (line : list N) : bool :=
  contains (lower line) (py "no explanations").

(** The loop of [_truncate_request_message]: keep the lines up to and
    including the first one that mentions "no explanations". *)
Fixpoint truncate_lines (lines : list (list N)) : list (list N) :=
  match lines with
  | [] => []
  | line :: rest =>
      if mentions_no_explanations line then [line]
      else line :: truncate_lines rest
  end.

(** [_truncate_request_message] *)
Definition _truncate_request_message (request_text : list N) : list N :=
  join [ newline ] (truncate_lines (split_on newline request_text)).

(** The keys on which [on_key_press] dismisses the suggestion: the arrow
    keys, and the keys that change the content (one-character key names,
    Return, BackSpace, Delete, space) unless listed as navigation or
    modifier keys. *)
Definition dismissing_key (keysym : string) : bool :=
  bool_decide (keysym ∈ ["Up"; "Down"; "Left"; "Right"]%string)
  || (bool_decide (String.length keysym = 1)
      || bool_decide (keysym ∈ ["Return"; "BackSpace"; "Delete"; "space"]%string))
     && negb (bool_decide (keysym ∈
          ["Home"; "End"; "Page_Up"; "Page_Down"; "Control_L"; "Control_R";
           "Shift_L"; "Shift_R"; "Alt_L"; "Alt_R"; "Escape"; "Tab"; "Caps_Lock";
           "Num_Lock"; "Scroll_Lock"; "F1"; "F2"; "F3"; "F4"; "F5"; "F6"; "F7";
           "F8"; "F9"; "F10"; "F11"; "F12"]%string)).

Section MoreEditor.
Context {W : Type} `{TW : TextWidget W}.

(** [on_text_change]; the result tells whether [request_ai_completion]
    was scheduled ([root.after(300, ...)]).  The two widget reads feed the
    debug output only. *)
Definition on_text_change (keysym : string) : M (W:=W) bool :=
  bind (ask (λ w, w_index w INSERT)) (λ cursor_pos,
  bind (ask (λ w, w_get w (At (Pos (pos_line cursor_pos) 0))
                        (LineEnd (pos_line cursor_pos)))) (λ _,
  bind (gets ai_enabled_var) (λ enabled,
  bind (gets ai_engine) (λ engine,
  ret (enabled && (if engine is Some _ then true else false)
       && negb (bool_decide (keysym ∈ ["Up"; "Down"; "Left"; "Right"; "Tab"]%string))))))).

(** [CodeEditor.__init__]: the engine is built from the configuration;
    when that raises, the editor goes on without an engine. *)
Definition editor_new (OpenAI : json → bool) (w : W) (config : json) : CodeEditor W :=
  editor_init w (match engine_new OpenAI config with
                 | inr engine => Some engine
                 | inl _ => None
                 end).

(** A method that leaves a view [f] of the editor as it is. *)
Definition preserves {A B} (f : CodeEditor W → B) (m : M (W:=W) A) : Prop :=
  ∀ ed, f (m ed).2 = f ed.

(** The engine and the switch that enables completion. *)
Definition engine_view (ed : CodeEditor W) : option AICompletionEngine * bool :=
  (ai_engine ed, ai_enabled_var ed).

(** An event other than the run of a worker thread. *)
Definition ui_event (ev : event W) : bool :=
  match ev with
  | EvWorker _ _ _ => false
  | _ => true
  end.

End MoreEditor.

(** ** Scenarios *)

(** The completion [İx = 1]: its first character is U+0130, whose
    lower-case form is two characters long. *)
Definition dotted_completion : str := 304%N :: py "x = 1".

(** Fifty-two insertions under distinct one-character keys. *)
Definition fifty_two_entries : list (str * str) :=
  map (λ n, ([N.of_nat (65 + n)], py "pass")) (seq 0 52).

(** A provider that always answers with one choice. *)
Definition answer (s : string) : ChatRequest → ProviderOutcome :=
  λ _, PResponse [Some (py s)].

(** A provider that always fails. *)
Definition failing : ChatRequest → ProviderOutcome :=
  λ _, PRaise (py "connection reset").

(** An engine configured with a cache capacity of one (under both
    spellings of the key), after two requests a second apart. *)
Definition capacity_one_config : gmap string json :=
  {[ "cacheCapacity"%string := JInt 1; "cache_capacity"%string := JInt 1 ]}.

Definition capacity_one_engine : AICompletionEngine :=
  let e1 := (get_completion 1 (answer "x = 1") [] (py "a") [] (engine_init capacity_one_config)).2 in
  (get_completion 2 (answer "y = 2") [] (py "b") [] e1).2.

(** Two current lines that differ by a tab only. *)
Definition line_with_tab : str := py "a" ++ [9%N] ++ py "b".
Definition line_without_tab : str := py "ab".

(** Two windows that differ only beyond the truncation bounds. *)
Definition long_before_1 : str := py "x = 1" ++ repeat 45%N 100.
Definition long_before_2 : str := py "y = 2" ++ repeat 45%N 100.
Definition long_after_1 : str := repeat 43%N 50 ++ py "tail one".
Definition long_after_2 : str := repeat 43%N 50 ++ py "tail two".

(** An editor showing the suggestion [foo] after the text [ab]. *)
Definition editor_with_ghost : CodeEditor FlatText.t :=
  handle (EvCallback (ShowCompletion (py "abfoo") (Pos 1 2)))
         (demo_editor "ab" (Pos 1 2)).

(** The same editor after the End key: the key press keeps the
    suggestion, and the widget moves the cursor to the end of the line,
    past the ghost text. *)
Definition editor_after_end_key : CodeEditor FlatText.t :=
  handle (EvWidget (λ w, default w (FlatText.mark_set_insert w (LineEnd 1))))
         (handle (EvKeyPress "End") editor_with_ghost).

(** The arguments of the worker that a trigger on that editor starts. *)
Definition late_args : ThreadArgs :=
  {| arg_context_before := []; arg_current_line := py "ab";
     arg_context_after := []; arg_cursor_pos := Pos 1 5 |}.

(** That editor after the trigger, after the worker has got the answer
    [abfoo] from the provider, and after the functions the worker
    scheduled have run. *)
Definition editor_after_late_answer : CodeEditor FlatText.t :=
  let out := _get_completion_async 10 (answer "abfoo") late_args
               (handle (EvTrigger 10) editor_after_end_key) in
  run (map EvCallback out.1) out.2.

(** A three-line document with the cursor at the end of its second line. *)
Definition three_line_editor : CodeEditor FlatText.t :=
  demo_editor "x
ab
 y" (Pos 2 2).

(** A configuration file whose key is a number. *)
Definition numeric_key_config : json :=
  JObject {[ "openai_api_key"%string := JInt 12345 ]}.


(** An engine with the default configuration after a first request at
    second 10, and the arguments of that request. *)
Definition first_request_engine : AICompletionEngine :=
  (get_completion 10 (answer "x = 1") [] (py "a") [] demo_engine).2.

(** * Properties *)

(** ** Python strings *)

Section StrFacts.
Implicit Types s p w r t : str.

Lemma lower_app s t : lower (s ++ t) = lower s ++ lower t.
Proof. unfold lower. by rewrite map_app, concat_app. Qed.

Lemma latin1_app s t : latin1 (s ++ t) ↔ latin1 s ∧ latin1 t.
Proof. apply Forall_app. Qed.

Lemma latin1_take n s : latin1 s → latin1 (take n s).
Proof. apply Forall_take. Qed.

Lemma latin1_drop n s : latin1 s → latin1 (drop n s).
Proof. apply Forall_drop. Qed.

(** On Latin-1 text [str.lower] works character by character. *)
Lemma lower_latin1 s : latin1 s → lower s = map to_lower s.
Proof.
  induction 1 as [|c s Hc _ IH]; [done|].
  change (lower (c :: s)) with (lower_char c ++ lower s). rewrite IH.
  unfold lower_char. destruct (c =? 304)%N eqn:E; [|done].
  apply N.eqb_eq in E. lia.
Qed.

Lemma length_lower s : latin1 s → length (lower s) = length s.
Proof. intros H. by rewrite lower_latin1, length_map. Qed.

Lemma lower_take n s : latin1 s → lower (take n s) = take n (lower s).
Proof.
  intros H. rewrite !lower_latin1 by auto using latin1_take.
  by rewrite <- firstn_map.
Qed.

Lemma lower_drop n s : latin1 s → lower (drop n s) = drop n (lower s).
Proof.
  intros H. rewrite !lower_latin1 by auto using latin1_drop.
  by rewrite <- skipn_map.
Qed.

Lemma lower_eq_length p w :
  latin1 p → latin1 w → lower p = lower w → length p = length w.
Proof. intros Hp Hw E. by rewrite <- (length_lower p), E, length_lower. Qed.

Lemma startswith_spec s p : startswith s p = true ↔ ∃ r, s = p ++ r.
Proof.
  revert s. induction p as [|a p IH]; intros s.
  - destruct s; simpl; split; eauto.
  - destruct s as [|b s]; simpl.
    + split; [done|]. by intros [r Hr].
    + rewrite andb_true_iff, bool_decide_eq_true, IH. split.
      * intros [-> [r ->]]. eauto.
      * intros [r Hr]. injection Hr as -> ->. eauto.
Qed.

Lemma startswith_false s p : startswith s p = false ↔ ¬ ∃ r, s = p ++ r.
Proof. rewrite <- startswith_spec. destruct (startswith s p); naive_solver. Qed.

(** A prefix match up to case, in the two forms. *)
Lemma starts_with_iff s w r :
  latin1 s → latin1 w →
  Spec.starts_with s w r ↔
  startswith (lower s) (lower w) = true ∧ r = drop (length w) s.
Proof.
  intros Ls Lw. rewrite startswith_spec. split.
  - intros (p & -> & E). apply latin1_app in Ls as [Lp Lr]. split.
    + exists (lower r). by rewrite lower_app, E.
    + by rewrite <- (lower_eq_length _ _ Lp Lw E), drop_app_length.
  - intros [[r0 E] ->]. exists (take (length w) s). split.
    + by rewrite take_drop.
    + rewrite lower_take, E, <- (length_lower w) by done.
      by rewrite take_app_length.
Qed.

Lemma occurs_at_iff s w i r :
  latin1 s → latin1 w →
  Spec.occurs_at s w i r ↔
  i ≤ length s ∧ startswith (lower (drop i s)) (lower w) = true
  ∧ r = drop (i + length w) s.
Proof.
  intros Ls Lw. split.
  - intros (pre & p & -> & <- & E). split; [rewrite length_app; lia|].
    rewrite drop_app_length.
    apply latin1_app in Ls as [_ Ls].
    destruct (proj1 (starts_with_iff (p ++ r) w r Ls Lw)) as [H1 H2]; [by exists p|].
    split; [done|].
    by rewrite <- drop_drop, drop_app_length.
  - intros (Hi & Hs & ->).
    destruct (proj2 (starts_with_iff (drop i s) w _ (latin1_drop i s Ls) Lw)
                (conj Hs eq_refl)) as (p & E & Hp).
    exists (take i s), p. rewrite drop_drop in E. rewrite <- E, take_drop.
    split; [done|]. split; [|done]. rewrite length_take. lia.
Qed.

Lemma find_unfold s sub :
  find s sub =
  if startswith s sub then Some 0
  else match s with [] => None | _ :: s' => S <$> find s' sub end.
Proof. by destruct s. Qed.

Lemma find_Some_iff s sub i :
  find s sub = Some i ↔
  i ≤ length s ∧ startswith (drop i s) sub = true
  ∧ ∀ j, j < i → startswith (drop j s) sub = false.
Proof.
  revert i. induction s as [|c s IH]; intros i; rewrite find_unfold.
  - destruct (startswith [] sub) eqn:E; split.
    + intros [= <-]. split_and!; [done|done|intros; lia].
    + intros (Hi & _ & _). simpl in Hi. f_equal; lia.
    + done.
    + intros (_ & H & _). rewrite drop_nil in H. congruence.
  - destruct (startswith (c :: s) sub) eqn:E; split.
    + intros [= <-]. split_and!; [simpl; lia|done|intros; lia].
    + intros (_ & _ & Hmin). destruct i as [|i]; [done|].
      specialize (Hmin 0 ltac:(lia)). rewrite drop_0 in Hmin. congruence.
    + destruct (find s sub) as [i'|] eqn:F; [|done]. intros [= <-].
      destruct (proj1 (IH i') eq_refl) as (Hi & Hs & Hmin).
      split_and!; [simpl; lia|done|].
      intros [|j] Hj; [done|]. apply Hmin; lia.
    + intros (Hi & Hs & Hmin). destruct i as [|i]; [rewrite drop_0 in Hs; congruence|].
      assert (find s sub = Some i) as ->; [|done].
      apply IH. split_and!; [simpl in Hi; lia|done|].
      intros j Hj. apply (Hmin (S j)); lia.
Qed.

Lemma find_None_iff s sub :
  find s sub = None ↔ ∀ j, startswith (drop j s) sub = false.
Proof.
  induction s as [|c s IH]; rewrite find_unfold.
  - destruct (startswith [] sub) eqn:E; split; try done.
    + intros H. specialize (H 0). rewrite drop_0 in H. congruence.
    + intros _ j. by rewrite drop_nil.
  - destruct (startswith (c :: s) sub) eqn:E; split; try done.
    + intros H. specialize (H 0). rewrite drop_0 in H. congruence.
    + destruct (find s sub) eqn:F; [done|]. intros _ [|j]; [done|].
      simpl. by apply IH.
    + intros H. assert (find s sub = None) as ->; [|done].
      apply IH. intros j. apply (H (S j)).
Qed.

Lemma contains_find s sub : contains s sub = true ↔ is_Some (find s sub).
Proof.
  unfold contains. destruct (find s sub); split; try done; eauto.
Qed.

(** A text that holds [sub] somewhere. *)
Lemma contains_infix pre sub post : contains (pre ++ sub ++ post) sub = true.
Proof.
  apply contains_find. destruct (find (pre ++ sub ++ post) sub) eqn:F; [eauto|].
  pose proof (proj1 (find_None_iff _ _) F (length pre)) as H.
  rewrite drop_app_length in H.
  apply startswith_false in H. destruct H. eauto.
Qed.

(** Every token of [split] is a piece of the text it was split from. *)
Lemma split_go_infix t tok s :
  t ∈ split_go tok s → ∃ pre post, tok ++ s = pre ++ t ++ post.
Proof.
  revert tok. induction s as [|c s IH]; intros tok; simpl.
  - destruct tok as [|a tok]; [by intros ?%elem_of_nil|].
    intros ->%list_elem_of_singleton. exists [], []. by rewrite app_nil_r.
  - destruct (is_space c).
    + destruct tok as [|a tok].
      * intros (pre & post & E)%IH. exists (c :: pre), post.
        simpl in *. by rewrite E.
      * intros [->|(pre & post & E)%IH]%elem_of_cons.
        -- by exists [], (c :: s).
        -- exists ((a :: tok) ++ c :: pre), post.
           simpl in E. rewrite E. by rewrite <- !app_assoc.
    + intros (pre & post & E)%IH. exists pre, post.
      rewrite <- E. by rewrite <- app_assoc.
Qed.

Lemma split_infix t s : t ∈ split s → ∃ pre post, s = pre ++ t ++ post.
Proof. apply (split_go_infix t []). Qed.

Lemma split_latin1 t s : t ∈ split s → latin1 s → latin1 t.
Proof.
  intros (pre & post & ->)%split_infix H.
  apply latin1_app in H as [_ H]. by apply latin1_app in H as [H _].
Qed.

Lemma list_index_elem w (l : list str) : w ∈ l → is_Some (list_index w l).
Proof.
  induction l as [|x l IH]; [by intros ?%elem_of_nil|].
  simpl. destruct (decide (x = w)); [eauto|].
  intros [->|H]%elem_of_cons; [done|].
  destruct (IH H) as [i ->]. eauto.
Qed.

End StrFacts.

(** ** The overlap resolver *)

Section Overlap.
Implicit Types cw raw out : str.

Lemma starts_with_occurs s w r : Spec.starts_with s w r → Spec.occurs_at s w 0 r.
Proof. intros (p & -> & E). by exists [], p. Qed.

(** A token that starts with the word puts the word inside the text: the
    token scan can only match where the substring search already has. *)
Lemma token_prefix_occurs raw cw t r :
  t ∈ split raw → Spec.starts_with t cw r → ∃ i r', Spec.occurs_at raw cw i r'.
Proof.
  intros (pre & post & ->)%split_infix (p & -> & E).
  exists (length pre), (r ++ post), pre, p. by rewrite <- app_assoc.
Qed.

(** The same in the terms of the code, for every text: when the lower-case
    form of a token starts with that of the word, the lower-case form of
    the text holds that of the word. *)
Lemma token_rule_shadowed cw raw t :
  t ∈ split raw → startswith (lower t) (lower cw) = true →
  contains (lower raw) (lower cw) = true.
Proof.
  intros (pre & post & ->)%split_infix [r Hr]%startswith_spec.
  rewrite !lower_app, Hr, <- app_assoc. apply contains_infix.
Qed.

Lemma no_prefix_iff s w :
  latin1 s → latin1 w →
  Spec.no_prefix s w ↔ startswith (lower s) (lower w) = false.
Proof.
  intros Ls Lw. split.
  - intros H. destruct (startswith (lower s) (lower w)) eqn:E; [|done].
    destruct (H (drop (length w) s)). by apply starts_with_iff.
  - intros E r [E' _]%starts_with_iff; [congruence|done..].
Qed.

Lemma no_occurrence_iff s w :
  latin1 s → latin1 w →
  w ≠ [] → Spec.no_occurrence s w ↔ find (lower s) (lower w) = None.
Proof.
  intros Ls Lw Hw. rewrite find_None_iff. split.
  - intros H j. destruct (startswith (drop j (lower s)) (lower w)) eqn:E; [|done].
    destruct (decide (j ≤ length s)) as [Hj|Hj].
    + destruct (H j (drop (j + length w) s)). apply occurs_at_iff; [done..|].
      by rewrite lower_drop.
    + rewrite drop_ge in E by (rewrite length_lower by done; lia).
      destruct w as [|c w]; [done|].
      rewrite (lower_latin1 (c :: w)) in E by done. done.
  - intros H i r (_ & E & _)%occurs_at_iff; [|done..].
    rewrite lower_drop, H in E by done. done.
Qed.

Lemma trim_token_loop_no_match cws ws cw raw :
  (∀ t, t ∈ ws → startswith (lower t) (lower cw) = false) →
  trim_token_loop cws ws cw raw = raw.
Proof.
  induction ws as [|t ws IH]; intros H; [done|]. simpl.
  rewrite (H t) by apply list_elem_of_here.
  apply IH. intros t' Ht'. apply H. by apply list_elem_of_further.
Qed.

Lemma no_occurrence_no_token raw cw t :
  Spec.no_occurrence raw cw → t ∈ split raw → Spec.no_prefix t cw.
Proof.
  intros Hno Ht r Hr. destruct (token_prefix_occurs raw cw t r Ht Hr) as (i & r' & H).
  by apply (Hno i r').
Qed.

(** On Latin-1 text the resolver returns what the resolution order
    prescribes. *)
Lemma trim_resolves cw raw :
  latin1 cw → latin1 raw → Spec.resolve cw raw (_trim_completion_overlap cw raw).
Proof.
  intros Lw Ls. unfold _trim_completion_overlap.
  destruct cw as [|a cw]; [by apply Spec.rule0|].
  set (w := a :: cw) in *. assert (w ≠ []) as Hw by done. clearbody w.
  destruct (startswith (lower raw) (lower w)) eqn:E1.
  { apply Spec.rule1; [done|]. by apply starts_with_iff. }
  apply no_prefix_iff in E1; [|done..].
  destruct (contains (lower raw) (lower w)) eqn:E2.
  - apply contains_find in E2 as [pos F]. rewrite F.
    apply find_Some_iff in F as (Hi & Hs & Hmin).
    rewrite length_lower in Hi by done.
    apply (Spec.rule2 _ _ pos); [done|done| |].
    + apply occurs_at_iff; [done..|]. by rewrite lower_drop.
    + intros j r' Hj (_ & E & _)%occurs_at_iff; [|done..].
      rewrite lower_drop, Hmin in E; done.
  - assert (find (lower raw) (lower w) = None) as F.
    { destruct (find (lower raw) (lower w)) eqn:F; [|done].
      unfold contains in E2. by rewrite F in E2. }
    apply no_occurrence_iff in F; [|done..].
    rewrite trim_token_loop_no_match.
    + apply Spec.rule4; [done..|]. intros t. by apply no_occurrence_no_token.
    + intros t Ht. apply no_prefix_iff; [by eapply split_latin1|done|].
      by apply (no_occurrence_no_token raw).
Qed.

(** On Latin-1 text the resolution order leaves no choice. *)
Lemma resolve_functional cw raw out :
  latin1 cw → latin1 raw →
  Spec.resolve cw raw out → out = _trim_completion_overlap cw raw.
Proof.
  intros Lw Ls H. unfold _trim_completion_overlap. destruct H as
    [->|r Hw H1|i r Hw H1 H2 Hmin|before token after r Hw H1 H2 Hs Hb Ht|Hw H1 H2 H3].
  - done.
  - destruct cw; [done|]. apply starts_with_iff in H1 as [-> ->]; done.
  - destruct cw as [|a cw]; [done|]. set (w := a :: cw) in *.
    rewrite (proj1 (no_prefix_iff _ _ Ls Lw) H1).
    apply occurs_at_iff in H2 as (Hi & Hs & ->); [|done..].
    assert (find (lower raw) (lower w) = Some i) as F.
    { apply find_Some_iff. rewrite length_lower, <- lower_drop by done.
      split_and!; [done..|]. intros j Hj.
      destruct (startswith (drop j (lower raw)) (lower w)) eqn:E; [|done].
      destruct (Hmin j (drop (j + length w) raw) Hj).
      apply occurs_at_iff; [done..|]. rewrite lower_drop by done.
      split_and!; [lia|done..]. }
    unfold contains. by rewrite F.
  - destruct (token_prefix_occurs raw cw token r) as (i & r' & Ho); [|done|].
    + rewrite Hs. apply elem_of_app. right. apply list_elem_of_here.
    + by destruct (H2 i r').
  - destruct cw as [|a cw]; [done|]. set (w := a :: cw) in *.
    rewrite (proj1 (no_prefix_iff _ _ Ls Lw) H1).
    apply no_occurrence_iff in H2; [|done..]. unfold contains. rewrite H2.
    rewrite trim_token_loop_no_match; [done|].
    intros t Ht. apply no_prefix_iff; [by eapply split_latin1|done|]. by apply H3.
Qed.

(** X26. The resolution order on Latin-1 text: for a word and a
    completion within U+0000..U+00FF the resolver returns exactly what the
    order prescribes (first match wins, matching up to case, output in the
    case of the completion): the completion itself for an empty word; else
    the remainder after the word when the completion starts with it; else
    what follows the end of the first occurrence of the word; else the
    completion unchanged, the token scan having nothing left to match.  In
    particular the word "val" against "the value is here" gives
    "ue is here". *)
Theorem trim_resolution_order_latin1 cw raw :
  latin1 cw → latin1 raw →
  (∀ out, Spec.resolve cw raw out ↔ out = _trim_completion_overlap cw raw)
  ∧ _trim_completion_overlap (py "val") (py "the value is here") = py "ue is here".
Proof.
  intros Lw Ls. split; [|reflexivity].
  intros out. split.
  - by apply resolve_functional.
  - intros ->. by apply trim_resolves.
Qed.

End Overlap.

Lemma trim_resolution_order_latin1_witness :
  Spec.resolve (py "val") (py "the value is here") (py "ue is here").
Proof.
  refine (proj2 (proj1 (trim_resolution_order_latin1 (py "val")
                          (py "the value is here") _ _) (py "ue is here")) _).
  - apply (bool_decide_unpack (Forall (λ c, (c < 256)%N) (py "val"))).
    vm_compute. exact I.
  - apply (bool_decide_unpack (Forall (λ c, (c < 256)%N) (py "the value is here"))).
    vm_compute. exact I.
  - vm_compute. reflexivity.
Defined.

(** The only texts with the lower-case form [x]. *)
Lemma lower_is_x (p : str) : lower p = py "x" → p = py "x" ∨ p = py "X".
Proof.
  destruct p as [|c p]; [done|].
  change (lower (c :: p)) with (lower_char c ++ lower p).
  unfold lower_char. destruct (c =? 304)%N; [done|].
  intros [= Hc Hp]. destruct p as [|c' p].
  - unfold to_lower in Hc.
    destruct (_ || _)%bool;
      [right; change (py "X") with [88%N]|left; change (py "x") with [120%N]];
      f_equal; lia.
  - exfalso. revert Hp. change (lower (c' :: p)) with (lower_char c' ++ lower p).
    unfold lower_char. by destruct (c' =? 304)%N.
Qed.

(** The word [x] occurs in [İx = 1] once, at offset 1, followed by [ = 1]. *)
Lemma dotted_occurs i (r : str) :
  Spec.occurs_at dotted_completion (py "x") i r → i = 1 ∧ r = py " = 1".
Proof.
  intros (pre & p & E & <- & L). apply lower_is_x in L as [->| ->];
    vm_compute in E;
    repeat (destruct pre as [|? pre]; [by simplify_eq|injection E as <- E]).
  all: by destruct pre.
Qed.

(** C1, where the code departs from it: the completion [İx = 1] and the
    typed word [x].  The resolution order prescribes [ = 1], what follows
    the end of the first (and only) occurrence of the word, and nothing
    else.  The resolver returns [= 1]: it looks the word up in the
    lower-case form of the completion, which is one character longer than
    the completion, finds it at offset 2 there, and cuts the completion
    itself at that offset plus the length of the word. *)
Theorem trim_completion_overlap_offset_shift :
  Spec.resolve (py "x") dotted_completion (py " = 1")
  ∧ (∀ out, Spec.resolve (py "x") dotted_completion out → out = py " = 1")
  ∧ lower dotted_completion = [105; 775]%N ++ py "x = 1"
  ∧ find (lower dotted_completion) (lower (py "x")) = Some 2
  ∧ _trim_completion_overlap (py "x") dotted_completion = py "= 1".
Proof.
  assert (Spec.no_prefix dotted_completion (py "x")) as Hnp.
  { intros r Hr%starts_with_occurs. by apply dotted_occurs in Hr as [? _]. }
  assert (Spec.occurs_at dotted_completion (py "x") 1 (py " = 1")) as Hocc.
  { by exists [304%N], (py "x"). }
  split_and!; [|intros out|reflexivity..].
  - apply (Spec.rule2 _ _ 1); [done..|].
    intros j r' Hj Hr'. apply dotted_occurs in Hr' as [-> _]. lia.
  - intros [E|r _ Hr%starts_with_occurs|i r _ _ Hr _
           |before token after r _ _ Hno _ _ _|_ _ Hno _].
    + done.
    + by apply dotted_occurs in Hr as [? _].
    + by apply dotted_occurs in Hr as [_ ->].
    + by destruct (Hno _ _ Hocc).
    + by destruct (Hno _ _ Hocc).
Qed.


(** ** The cache *)

Section Cache.
Implicit Types (d cache : PyDict.dict) (k v key : str).

Lemma mem_iff k d : PyDict.mem k d = true ↔ k ∈ PyDict.keys d.
Proof.
  unfold PyDict.mem, PyDict.keys. induction d as [|[k' v'] d IH]; simpl.
  - split; [done|]. by intros ?%elem_of_nil.
  - rewrite orb_true_iff, bool_decide_eq_true, IH, elem_of_cons.
    split; (intros [?|?]; [by left|by right]).
Qed.

Lemma mem_false_iff k d : PyDict.mem k d = false ↔ k ∉ PyDict.keys d.
Proof. rewrite <- mem_iff. destruct (PyDict.mem k d); naive_solver. Qed.

(** A lookup that hits returns the stored value. *)
Lemma mem_get k d : PyDict.mem k d = true → is_Some (PyDict.get k d).
Proof.
  induction d as [|[k' v'] d IH]; simpl; [done|].
  destruct (decide (k' = k)); [eauto|].
  rewrite bool_decide_eq_false_2 by done. done.
Qed.

(** A new key goes to the end. *)
Lemma set_fresh k v d : PyDict.mem k d = false → PyDict.set k v d = d ++ [(k, v)].
Proof.
  induction d as [|[k' v'] d IH]; simpl; [done|].
  destruct (decide (k' = k)).
  - by rewrite bool_decide_eq_true_2.
  - rewrite bool_decide_eq_false_2 by done. simpl. intros H. by rewrite IH.
Qed.

Lemma set_length_le k v d : length (PyDict.set k v d) ≤ S (length d).
Proof.
  induction d as [|[k' v'] d IH]; simpl; [done|].
  destruct (decide (k' = k)); simpl; lia.
Qed.

(** Deleting the first key drops the first entry. *)
Lemma del_first_key k d : PyDict.first_key d = Some k → PyDict.del k d = drop 1 d.
Proof.
  destruct d as [|[k' v'] d]; [done|]. simpl. intros [= ->].
  by rewrite decide_True.
Qed.

Lemma cache_store_length k v cache :
  length cache ≤ 50 → length (cache_store k v cache) ≤ 50.
Proof.
  intros H. unfold cache_store.
  pose proof (set_length_le k v cache) as Hs.
  destruct (PyDict.set k v cache) as [|[k0 v0] c'] eqn:E; [simpl; lia|].
  destruct (50 <? length ((k0, v0) :: c')) eqn:L.
  - simpl. rewrite decide_True by done. simpl in Hs. lia.
  - apply Nat.ltb_ge in L. done.
Qed.

Lemma cache_store_fresh k v cache :
  PyDict.mem k cache = false →
  cache_store k v cache =
    if 50 <? S (length cache) then drop 1 (cache ++ [(k, v)]) else cache ++ [(k, v)].
Proof.
  intros H. unfold cache_store. rewrite (set_fresh _ _ _ H).
  rewrite length_app, Nat.add_1_r.
  destruct (50 <? S (length cache)); [|done].
  destruct (cache ++ [(k, v)]) as [|[k0 v0] c'] eqn:E; [done|].
  by apply del_first_key.
Qed.

(** At capacity, a new entry pushes out the one inserted first. *)
Lemma cache_store_full k v cache :
  PyDict.mem k cache = false → length cache = 50 →
  cache_store k v cache = drop 1 cache ++ [(k, v)].
Proof.
  intros H L. rewrite cache_store_fresh, L by done. simpl.
  destruct cache; [done|]. done.
Qed.

Lemma most_recent_keys c (entries : list (str * str)) k :
  k ∈ PyDict.keys (Spec.most_recent c entries) → k ∈ entries.*1.
Proof.
  unfold PyDict.keys, Spec.most_recent. rewrite fmap_drop.
  intros H. rewrite <- (take_drop (length entries - c) (entries.*1)).
  apply elem_of_app. by right.
Qed.

Lemma cache_run_snoc entries kv cache :
  cache_run (entries ++ [kv]) cache = cache_store kv.1 kv.2 (cache_run entries cache).
Proof. unfold cache_run. by rewrite foldl_app. Qed.

(** After any run of insertions under distinct keys the cache holds the
    50 most recent entries, oldest first. *)
Lemma cache_run_most_recent entries :
  NoDup entries.*1 → cache_run entries [] = Spec.most_recent 50 entries.
Proof.
  induction entries as [|[k v] entries IH] using rev_ind; [done|].
  rewrite fmap_app, NoDup_app. intros (Hnd & Hfresh & _).
  rewrite cache_run_snoc, IH by done. simpl.
  assert (PyDict.mem k (Spec.most_recent 50 entries) = false) as Hk.
  { apply mem_false_iff. intros Hin%most_recent_keys.
    apply (Hfresh k Hin). simpl. apply list_elem_of_here. }
  rewrite cache_store_fresh by done.
  unfold Spec.most_recent. rewrite length_drop, length_app. simpl.
  destruct (50 <? S (length entries - (length entries - 50))) eqn:L.
  - apply Nat.ltb_lt in L.
    replace (length entries + 1 - 50) with (length entries - 50 + 1) by lia.
    rewrite <- drop_drop. f_equal. by rewrite drop_app_le by lia.
  - apply Nat.ltb_ge in L.
    replace (length entries + 1 - 50) with 0 by lia.
    replace (length entries - 50) with 0 by lia. done.
Qed.

Lemma most_recent_length c (entries : list (str * str)) :
  length (Spec.most_recent c entries) = min (length entries) c.
Proof. unfold Spec.most_recent. rewrite length_drop. lia. Qed.

End Cache.

(** ** The rate limiter and the engine *)

Section Engine.
Implicit Types (e : AICompletionEngine) (now : float).

(** The rate limiter by the outcome of its comparison. *)
Lemma should_debounce_unfold now e :
  _should_debounce now e =
    match float_lt (now * 1000 - _last_request_time e) (delay_of e) with
    | Some true => (Ok true, e)
    | Some false => (Ok false, set_last_request_time (now * 1000)%float e)
    | None => (Raise TypeError, e)
    end.
Proof. done. Qed.



Lemma should_debounce_raise now e x e' :
  _should_debounce now e = (Raise x, e') → e' = e.
Proof. unfold _should_debounce. repeat case_match; congruence. Qed.

Lemma get_completion_suppressed now respond cb cl ca e :
  (_should_debounce now e).1 = Ok true →
  get_completion now respond cb cl ca e = (Ok None, reset_chat e).
Proof.
  unfold get_completion, _should_debounce. simpl.
  repeat case_match; simpl; intros; simplify_eq; done.
Qed.



(** An admitted call leaves the time of its admission in the rate limiter,
    however the call ends. *)
Lemma get_completion_admitted_time now respond cb cl ca e :
  (_should_debounce now e).1 = Ok false →
  _last_request_time (get_completion now respond cb cl ca e).2 = (now * 1000)%float.
Proof.
  unfold get_completion, _should_debounce. simpl.
  repeat case_match; simplify_eq; simpl; intros; simplify_eq; auto.
Qed.

(** What a call does to the cache: nothing, or one [cache_store] under the
    fingerprint of the call, which the cache did not hold. *)
Lemma get_completion_cache now respond cb cl ca e :
  let key := _create_cache_key cb ca cl in
  let out := get_completion now respond cb cl ca e in
  _completion_cache out.2 = _completion_cache e
  ∨ (PyDict.mem key (_completion_cache e) = false
     ∧ ∃ completion, out.1 = Ok (Some completion)
         ∧ _completion_cache out.2 = cache_store key completion (_completion_cache e)).
Proof.
  unfold get_completion, _should_debounce. simpl.
  repeat case_match; simplify_eq; simpl in *; auto; right; eauto.
Qed.

(** A hit answers from the cache and leaves the cache, and the order of
    its entries, untouched. *)
Lemma get_completion_hit now respond cb cl ca e :
  (_should_debounce now e).1 = Ok false →
  PyDict.mem (_create_cache_key cb ca cl) (_completion_cache e) = true →
  let out := get_completion now respond cb cl ca e in
  out.1 = Ok (PyDict.get (_create_cache_key cb ca cl) (_completion_cache e))
  ∧ _completion_cache out.2 = _completion_cache e
  ∧ api_log out.2 = api_log e.
Proof.
  intros Hadm Hmem. destruct (mem_get _ _ Hmem) as [v Hv].
  revert Hadm. unfold get_completion, _should_debounce. simpl.
  repeat case_match; simplify_eq; simpl in *; intros; simplify_eq;
    try congruence.
  by rewrite Hv.
Qed.

Lemma engine_reachable_cache_bound e :
  engine_reachable e → length (_completion_cache e) ≤ 50.
Proof.
  induction 1 as [cfg|now respond cb cl ca e _ IH]; [simpl; lia|].
  destruct (get_completion_cache now respond cb cl ca e)
    as [->|(_ & completion & _ & ->)]; [done|].
  by apply cache_store_length.
Qed.

End Engine.

Lemma most_recent_min (entries : list (str * str)) :
  Spec.most_recent (min (length entries) 50) entries = Spec.most_recent 50 entries.
Proof. unfold Spec.most_recent. f_equal. lia. Qed.

(** C2. For every sequence of completions cached under distinct
    fingerprints, the cache holds exactly the min(n, 50) most recently
    inserted entries, in insertion order; at capacity a new entry removes
    the entry inserted first; [get_completion] changes the cache only by
    such an insertion under a fingerprint the cache does not hold; and a
    cache hit returns the stored text and leaves the cache, and with it the
    order of eviction, unchanged (FIFO, not LRU). *)
Theorem cache_fifo_insertion_order (entries : list (str * str)) :
  NoDup entries.*1 →
  cache_run entries [] = Spec.most_recent (min (length entries) 50) entries
  ∧ length (cache_run entries []) = min (length entries) 50
  ∧ (∀ k v cache,
       PyDict.mem k cache = false → length cache = 50 →
       cache_store k v cache = drop 1 cache ++ [(k, v)])
  ∧ (∀ now respond cb cl ca e,
       let key := _create_cache_key cb ca cl in
       let out := get_completion now respond cb cl ca e in
       _completion_cache out.2 = _completion_cache e
       ∨ (PyDict.mem key (_completion_cache e) = false
          ∧ ∃ completion, out.1 = Ok (Some completion)
              ∧ _completion_cache out.2
                = cache_store key completion (_completion_cache e)))
  ∧ (∀ now respond cb cl ca e,
       (_should_debounce now e).1 = Ok false →
       PyDict.mem (_create_cache_key cb ca cl) (_completion_cache e) = true →
       let out := get_completion now respond cb cl ca e in
       out.1 = Ok (PyDict.get (_create_cache_key cb ca cl) (_completion_cache e))
       ∧ _completion_cache out.2 = _completion_cache e
       ∧ PyDict.first_key (_completion_cache out.2)
         = PyDict.first_key (_completion_cache e)).
Proof.
  intros Hnd. split_and!.
  - rewrite most_recent_min. by apply cache_run_most_recent.
  - rewrite cache_run_most_recent by done.
    rewrite most_recent_length. lia.
  - apply cache_store_full.
  - apply get_completion_cache.
  - intros now respond cb cl ca e Hadm Hmem.
    destruct (get_completion_hit now respond cb cl ca e Hadm Hmem) as (H1 & H2 & _).
    simpl. by rewrite H1, H2.
Qed.

Lemma fifty_two_entries_distinct : NoDup fifty_two_entries.*1.
Proof. apply (bool_decide_unpack (NoDup fifty_two_entries.*1)). vm_compute. exact I. Qed.

Lemma cache_fifo_insertion_order_witness :
  NoDup fifty_two_entries.*1
  ∧ cache_run fifty_two_entries []
    = Spec.most_recent (min (length fifty_two_entries) 50) fifty_two_entries.
Proof.
  assert (NoDup fifty_two_entries.*1) as H.
  { apply (bool_decide_unpack (NoDup fifty_two_entries.*1)). vm_compute. exact I. }
  split; [exact H|].
  exact (proj1 (cache_fifo_insertion_order fifty_two_entries H)).
Defined.

(** Of the fifty-two insertions the first two are gone. *)
Example fifty_two_entries_cached :
  cache_run fifty_two_entries [] = drop 2 fifty_two_entries.
Proof. vm_compute. reflexivity. Qed.

Lemma capacity_one_engine_reachable : engine_reachable capacity_one_engine.
Proof.
  exact (engine_reach_call 2 (answer "y = 2") [] (py "b") [] _
           (engine_reach_call 1 (answer "x = 1") [] (py "a") [] _
              (engine_reach_init capacity_one_config))).
Qed.

(** C9, as stated, fails: an engine whose configuration sets the cache
    capacity to 1 holds two entries after two requests. *)
Lemma configured_capacity_exceeded :
  Spec.cacheCapacity (config capacity_one_engine) = JInt 1
  ∧ engine_reachable capacity_one_engine
  ∧ length (_completion_cache capacity_one_engine) = 2
  ∧ ¬ Spec.within_configured_capacity capacity_one_engine.
Proof.
  assert (Spec.cacheCapacity (config capacity_one_engine) = JInt 1) as Hc
    by (vm_compute; reflexivity).
  assert (length (_completion_cache capacity_one_engine) = 2) as Hl
    by (vm_compute; reflexivity).
  split; [exact Hc|]. split; [exact capacity_one_engine_reachable|].
  split; [exact Hl|].
  intros H. specialize (H 1 Hc). rewrite Hl in H. lia.
Qed.

(** C9, amended. The capacity of the cache is the constant 50 and not
    a value read from the configuration: for every configuration, the
    cache of an engine never holds more than 50 entries, and one
    insertion keeps a cache of at most 50 entries at most at 50. *)
Theorem cache_capacity_is_fifty (e : AICompletionEngine) :
  engine_reachable e →
  length (_completion_cache e) ≤ 50
  ∧ (∀ k v, length (cache_store k v (_completion_cache e)) ≤ 50).
Proof.
  intros H. pose proof (engine_reachable_cache_bound e H) as Hb.
  split; [done|]. intros k v. by apply cache_store_length.
Qed.

Lemma cache_capacity_is_fifty_witness :
  engine_reachable capacity_one_engine
  ∧ length (_completion_cache capacity_one_engine) ≤ 50.
Proof.
  split; [exact capacity_one_engine_reachable|].
  exact (proj1 (cache_capacity_is_fifty capacity_one_engine
                  capacity_one_engine_reachable)).
Defined.

(** ** The fingerprint *)

Lemma drop_spaces_newlines_app (s t : str) :
  drop_spaces_newlines (s ++ t) = drop_spaces_newlines s ++ drop_spaces_newlines t.
Proof. unfold drop_spaces_newlines, remove_char. by rewrite !filter_app. Qed.

Lemma create_cache_key_slices (context_before context_after cursor_line : str) :
  _create_cache_key context_before context_after cursor_line
  = drop_spaces_newlines (last_chars 100 context_before)
    ++ drop_spaces_newlines cursor_line
    ++ drop_spaces_newlines (take 50 context_after).
Proof.
  unfold _create_cache_key. fold (drop_spaces_newlines
    (last_chars 100 context_before ++ cursor_line ++ take 50 context_after)).
  by rewrite !drop_spaces_newlines_app.
Qed.

(** C7, as stated, fails: two windows whose slices agree once whitespace
    is normalised out, here a tab, have different fingerprints; the
    fingerprint keeps the tab. *)
Lemma tab_survives_in_fingerprint :
  Spec.normalize_whitespace (last_chars 100 []) = Spec.normalize_whitespace (last_chars 100 [])
  ∧ Spec.normalize_whitespace line_with_tab = Spec.normalize_whitespace line_without_tab
  ∧ Spec.normalize_whitespace (take 50 []) = Spec.normalize_whitespace (take 50 [])
  ∧ _create_cache_key [] [] line_with_tab = line_with_tab
  ∧ _create_cache_key [] [] line_with_tab ≠ _create_cache_key [] [] line_without_tab.
Proof. split_and!; [reflexivity..|]. vm_compute. discriminate. Qed.

(** C7, amended. The fingerprint is a function of the truncated slices
    alone: the last 100 characters of the before-context, the current-line
    prefix and the first 50 characters of the after-context, concatenated,
    with the space and newline characters removed (other whitespace, such
    as tabs, is kept).  Two windows whose slices agree after the removal
    of spaces and newlines have the same fingerprint, whatever they hold
    beyond the truncation bounds. *)
Theorem fingerprint_from_truncated_slices
    (before1 line1 after1 before2 line2 after2 : str) :
  drop_spaces_newlines (last_chars 100 before1)
    = drop_spaces_newlines (last_chars 100 before2) →
  drop_spaces_newlines line1 = drop_spaces_newlines line2 →
  drop_spaces_newlines (take 50 after1) = drop_spaces_newlines (take 50 after2) →
  _create_cache_key before1 after1 line1 = _create_cache_key before2 after2 line2
  ∧ _create_cache_key before1 after1 line1
    = drop_spaces_newlines (last_chars 100 before1 ++ line1 ++ take 50 after1).
Proof.
  intros Hb Hl Ha. split; [|reflexivity].
  rewrite !create_cache_key_slices. by rewrite Hb, Hl, Ha.
Qed.

Lemma fingerprint_from_truncated_slices_witness :
  long_before_1 ≠ long_before_2 ∧ long_after_1 ≠ long_after_2
  ∧ _create_cache_key long_before_1 long_after_1 (py "return a + b")
    = _create_cache_key long_before_2 long_after_2 (py "returna+b").
Proof.
  split; [vm_compute; discriminate|]. split; [vm_compute; discriminate|].
  apply (fingerprint_from_truncated_slices
           long_before_1 (py "return a + b") long_after_1
           long_before_2 (py "returna+b") long_after_2);
    vm_compute; reflexivity.
Defined.

(** ** The editor: how methods move the state *)

Section EditorFacts.
Context {W : Type} `{TW : TextWidget W}.
Implicit Types ed : CodeEditor W.

Lemma moves_together_same ed ed' :
  suggestion ed' = suggestion ed → moves_together ed ed'.
Proof. by left. Qed.

Lemma moves_together_trans ed1 ed2 ed3 :
  moves_together ed1 ed2 → moves_together ed2 ed3 → moves_together ed1 ed3.
Proof.
  intros H12 [H|[H|H]].
  - unfold moves_together in *. by rewrite H.
  - right. by left.
  - right. by right.
Qed.

Lemma moves_together_consistent ed ed' :
  suggestion_consistent ed → moves_together ed ed' → suggestion_consistent ed'.
Proof.
  unfold suggestion_consistent, moves_together, suggestion.
  intros Hc [H|[H|(p & t & Ht & H)]]; injection H as -> ->; [done|done|].
  split; [done|]. intros ->. done.
Qed.

Lemma together_ret {A} (a : A) : together (ret (W:=W) a).
Proof. intros ed. by left. Qed.

Lemma together_bind {A B} (m : M (W:=W) A) (k : A → M (W:=W) B) :
  together m → (∀ a, together (k a)) → together (bind m k).
Proof.
  intros Hm Hk ed. unfold bind. specialize (Hm ed).
  destruct (m ed) as [[a|x] ed1]; simpl in *; [|done].
  eapply moves_together_trans; [exact Hm|apply Hk].
Qed.

Lemma together_ask {A} (q : W → option A) : together (ask q).
Proof. intros ed. unfold ask. destruct (q _); by left. Qed.

Lemma together_tell (c : W → option W) : together (tell c).
Proof. intros ed. unfold tell. destruct (c _); by left. Qed.

Lemma together_gets {A} (f : CodeEditor W → A) : together (gets f).
Proof. intros ed. by left. Qed.

Lemma together_modify (f : CodeEditor W → CodeEditor W) :
  (∀ ed, suggestion (f ed) = suggestion ed) → together (modify f).
Proof. intros H ed. left. apply H. Qed.

Lemma together_status message : together (update_status (W:=W) message).
Proof. by apply together_modify. Qed.

Lemma together_stats : together (_update_ai_stats (W:=W)).
Proof. apply together_modify. intros ed. by destruct (ai_engine ed). Qed.

(** Dismissal clears both fields or touches neither. *)
Lemma together_clear : together (clear_ghost_text (W:=W)).
Proof.
  intros ed. unfold clear_ghost_text.
  destruct (ghost_text_start_pos ed) eqn:G, (current_completion ed) eqn:C;
    simpl; try (by left). right. by left.
Qed.

(** Composite methods, taken apart along their control flow. *)
Ltac together :=
  repeat first
    [ apply together_ret | apply together_ask | apply together_tell
    | apply together_gets | apply together_status | apply together_stats
    | apply together_clear
    | apply together_bind; [|intros ?]
    | match goal with
      | |- together (if ?b then _ else _) => destruct b
      | |- together (match ?x with _ => _ end) => destruct x
      end ].

(** Acceptance clears both fields or touches neither. *)
Lemma together_accept : together (accept_completion (W:=W)).
Proof.
  intros ed. unfold accept_completion.
  destruct (current_completion ed) eqn:C; [by left|].
  destruct (ghost_text_start_pos ed) eqn:G; [|by left].
  match goal with |- moves_together _ (?m ed).2 => assert (together m) as H end.
  { apply together_bind; [together|intros _].
    apply together_bind; [together|intros _].
    intros ed1. unfold bind, modify, update_status. simpl. right. by left. }
  apply H.
Qed.

(** Showing a completion leaves the fields, clears both, or sets the
    anchor together with a text that is not empty. *)
Lemma together_show completion cursor_pos :
  together (_show_completion (W:=W) completion cursor_pos).
Proof.
  unfold _show_completion. cbv zeta.
  apply together_bind; [together|intros p].
  destruct (negb _); [together|].
  apply together_bind; [together|intros _].
  destruct (strip completion) as [|c0 stripped] eqn:S; [together|].
  apply together_bind; [together|intros line].
  destruct (_trim_completion_overlap _ _) as [|t0 trimmed] eqn:T; [together|].
  apply together_bind; [together|intros _].
  intros ed. unfold bind, modify, tell, update_status, _update_ai_stats. simpl.
  right. right. exists cursor_pos, (t0 :: trimmed).
  split; [done|]. destruct (w_mark_set_insert _ _); [|done].
  simpl. by destruct (ai_engine ed).
Qed.

Lemma together_key_press keysym : together (on_key_press (W:=W) keysym).
Proof. unfold on_key_press. cbv zeta. together. Qed.

Lemma together_tab : together (on_tab_key (W:=W)).
Proof.
  unfold on_tab_key. apply together_bind; [together|intros [|]]; [|together].
  apply together_bind; [apply together_accept|intros _]. together.
Qed.

Lemma together_new_file : together (new_file (W:=W)).
Proof. unfold new_file. together. Qed.

Lemma together_guarded {A} (m : M (W:=W) A) : together m → together (guarded m).
Proof.
  intros H ed. specialize (H ed). unfold guarded.
  by destruct (m ed) as [[a|x] ed'].
Qed.

Lemma together_open_file file_path content :
  together (open_file (W:=W) file_path content).
Proof. unfold open_file. apply together_guarded. together. Qed.

Lemma together_save_file file_path : together (save_file (W:=W) file_path).
Proof. unfold save_file. apply together_guarded. together. Qed.

Lemma together_callback cb : together (run_callback (W:=W) cb).
Proof.
  destruct cb; simpl; [together|together|apply together_show|together|].
  intros ed. by left.
Qed.

Lemma together_request now : together (request_ai_completion (W:=W) now).
Proof.
  unfold request_ai_completion, get_context_around_cursor, logical_line_end_col.
  cbv zeta.
  apply together_bind; [together|intros engine].
  apply together_bind; [together|intros enabled].
  destruct (_ || _); [together|].
  apply together_bind; [together|intros last].
  destruct (_ <? _)%float; [together|].
  apply together_bind; [by apply together_modify|intros _].
  apply together_bind.
  - apply together_bind; [together|intros p].
    apply together_bind; [together|intros g].
    apply together_bind; [together|intros l].
    apply together_bind.
    { generalize (seq (max 1 (pos_line p - 10)) (pos_line p - max 1 (pos_line p - 10))).
      intros ns. induction ns as [|n ns IH]; simpl; [together|].
      apply together_bind; [together|intros ?].
      apply together_bind; [exact IH|intros ?]. together. }
    intros lb. apply together_bind; [together|intros q].
    apply together_bind; [|intros ?; together].
    generalize (seq (pos_line p + 1) (min (pos_line q) (pos_line p + 5) - pos_line p)).
    intros ns. induction ns as [|n ns IH]; simpl; [together|].
    apply together_bind; [together|intros ?].
    apply together_bind; [exact IH|intros ?]. together.
  - intros [[cb cl] ca]. together.
Qed.

(** Every event moves the suggestion fields together. *)
Lemma handle_moves_together (ev : event W) ed : moves_together ed (handle ev ed).
Proof.
  destruct ev; simpl.
  - apply together_key_press.
  - apply together_clear.
  - apply together_tab.
  - apply together_new_file.
  - apply together_open_file.
  - apply together_save_file.
  - apply together_request.
  - left. unfold _get_completion_async.
    destruct (ai_engine ed); [|done].
    destruct (get_completion _ _ _ _ _ _) as [[c|x] e']; [|done].
    by destruct (get_last_chat_info e').
  - apply together_callback.
  - apply together_clear.
  - apply together_accept.
  - by left.
Qed.

Lemma init_consistent w engine : suggestion_consistent (editor_init (W:=W) w engine).
Proof. done. Qed.

Lemma reachable_consistent ed : reachable ed → suggestion_consistent ed.
Proof.
  induction 1 as [w engine|ev ed _ IH]; [apply init_consistent|].
  eapply moves_together_consistent; [exact IH|apply handle_moves_together].
Qed.

End EditorFacts.

(** ** The stale-response guard, dismissal and the suggestion invariant *)

Section Suggestion.
Context {W : Type} `{TW : TextWidget W}.
Implicit Types ed : CodeEditor W.

(** C4. A provider result delivered to [_show_completion] while the
    cursor is somewhere else than where the request was issued is
    discarded: the call returns at once and the editor (text widget,
    suggestion fields and all the rest) is exactly as before. *)
Theorem stale_response_discarded ed (completion : str) (cursor_pos current : position) :
  w_index (text_editor ed) INSERT = Some current →
  current ≠ cursor_pos →
  _show_completion completion cursor_pos ed = (Ok tt, ed)
  ∧ run_callback (ShowCompletion completion cursor_pos) ed = (Ok tt, ed).
Proof.
  intros Hcur Hne.
  assert (_show_completion completion cursor_pos ed = (Ok tt, ed)) as H; [|done].
  unfold _show_completion, bind, ask. rewrite Hcur.
  by rewrite bool_decide_eq_false_2.
Qed.

(** C5. Dismissal never raises.  With no active suggestion it does
    nothing at all.  With an active suggestion it clears the two
    suggestion fields and changes nothing else but, possibly, the text
    widget; the widget changes only by the deletion of the span at the
    remembered anchor, and only when that span still reads exactly the
    remembered suggestion text; if it does not, the widget is left as it
    is. *)
Theorem dismissal_verifies_span ed :
  (clear_ghost_text ed).1 = Ok tt
  ∧ (suggestion_active ed = false → clear_ghost_text ed = (Ok tt, ed))
  ∧ (suggestion_active ed = true →
     ∃ start, ghost_text_start_pos ed = Some start ∧
       let completion := current_completion ed in
       let span_end := PlusChars start (length completion) in
       let ed' := (clear_ghost_text ed).2 in
       ed' = with_suggestion None [] (with_text_editor (text_editor ed') ed)
       ∧ (text_editor ed' = text_editor ed
          ∨ (w_get (text_editor ed) (At start) span_end = Some completion
             ∧ w_delete (text_editor ed) (At start) span_end = Some (text_editor ed')))
       ∧ (w_get (text_editor ed) (At start) span_end ≠ Some completion →
          text_editor ed' = text_editor ed)).
Proof.
  unfold clear_ghost_text, suggestion_active.
  destruct (ghost_text_start_pos ed) as [start|] eqn:G;
    [destruct (current_completion ed) as [|c0 cs] eqn:C|]; simpl.
  - split_and!; [done|done|done].
  - split_and!; [done|done|]. intros _. exists start. split; [done|].
    destruct (w_get _ _ _) as [actual|] eqn:Hget; simpl; [|by split_and!; [|left|]].
    destruct (w_tag_names _ _) as [tags|]; simpl; [|by split_and!; [|left|]].
    destruct (bool_decide ("ghost_text"%string ∈ tags)); simpl;
      [|by split_and!; [|left|]].
    destruct (bool_decide (actual = c0 :: cs)) eqn:Heq; simpl.
    + apply bool_decide_eq_true in Heq as ->.
      destruct (w_delete _ _ _) as [w'|] eqn:Hdel; simpl.
      * split_and!; [done|by right|done].
      * by split_and!; [|left|].
    + by split_and!; [|left|].
  - split_and!; [done|done|done].
Qed.

(** C10. In every state the editor can reach, the anchor
    [ghost_text_start_pos] is unset exactly when [current_completion] is
    empty.  Showing a completion, dismissal and acceptance, as every other
    event, leave the two fields as they are, clear both, or set the anchor
    together with a text that is not empty; so the state they lead to is
    consistent again. *)
Theorem suggestion_state_consistent ed :
  reachable ed →
  suggestion_consistent ed
  ∧ (∀ completion cursor_pos,
       moves_together ed (_show_completion completion cursor_pos ed).2
       ∧ suggestion_consistent (_show_completion completion cursor_pos ed).2)
  ∧ (moves_together ed (clear_ghost_text ed).2
     ∧ suggestion_consistent (clear_ghost_text ed).2)
  ∧ (moves_together ed (accept_completion ed).2
     ∧ suggestion_consistent (accept_completion ed).2)
  ∧ (∀ ev, moves_together ed (handle ev ed)
           ∧ suggestion_consistent (handle ev ed)).
Proof.
  intros Hr. pose proof (reachable_consistent ed Hr) as Hc.
  split; [done|]. split; [|split; [|split]].
  - intros completion cursor_pos.
    pose proof (together_show completion cursor_pos ed) as H.
    split; [done|]. by eapply moves_together_consistent.
  - pose proof (together_clear ed) as H.
    split; [done|]. by eapply moves_together_consistent.
  - pose proof (together_accept ed) as H.
    split; [done|]. by eapply moves_together_consistent.
  - intros ev. pose proof (handle_moves_together ev ed) as H.
    split; [done|]. by eapply moves_together_consistent.
Qed.

End Suggestion.

Lemma editor_with_ghost_reachable : reachable editor_with_ghost.
Proof.
  exact (reach_step (EvCallback (ShowCompletion (py "abfoo") (Pos 1 2))) _
           (reach_init (FlatText.plain "ab" (Pos 1 2)) (Some demo_engine))).
Qed.

Lemma editor_after_end_key_reachable : reachable editor_after_end_key.
Proof.
  exact (reach_step _ _ (reach_step (EvKeyPress "End") _ editor_with_ghost_reachable)).
Qed.

(** The shown suggestion: the ghost text [foo] sits at column 2 and the
    cursor stays before it. *)
Example editor_with_ghost_state :
  FlatText.text (text_editor editor_with_ghost) = py "abfoo"
  ∧ w_index (text_editor editor_with_ghost) INSERT = Some (Pos 1 2)
  ∧ suggestion editor_with_ghost = (Some (Pos 1 2), py "foo").
Proof. vm_compute. done. Qed.

Example editor_after_end_key_state :
  FlatText.text (text_editor editor_after_end_key) = py "abfoo"
  ∧ w_index (text_editor editor_after_end_key) INSERT = Some (Pos 1 5)
  ∧ suggestion editor_after_end_key = (Some (Pos 1 2), py "foo").
Proof. vm_compute. done. Qed.

Lemma stale_response_discarded_witness :
  w_index (text_editor editor_after_end_key) INSERT = Some (Pos 1 5)
  ∧ Pos 1 5 ≠ Pos 1 2
  ∧ _show_completion (py "abcdef") (Pos 1 2) editor_after_end_key
    = (Ok tt, editor_after_end_key).
Proof.
  assert (w_index (text_editor editor_after_end_key) INSERT = Some (Pos 1 5)) as H1
    by (vm_compute; reflexivity).
  assert (Pos 1 5 ≠ Pos 1 2) as H2 by discriminate.
  split; [exact H1|]. split; [exact H2|].
  exact (proj1 (stale_response_discarded editor_after_end_key (py "abcdef")
                  (Pos 1 2) (Pos 1 5) H1 H2)).
Defined.

Lemma dismissal_verifies_span_witness :
  suggestion_active editor_with_ghost = true
  ∧ (clear_ghost_text editor_with_ghost).1 = Ok tt.
Proof.
  split; [vm_compute; reflexivity|].
  exact (proj1 (dismissal_verifies_span editor_with_ghost)).
Defined.

(** Dismissing the shown suggestion takes the ghost text out of the
    document again; dismissing once more changes nothing. *)
Example dismissal_removes_ghost :
  let ed' := (clear_ghost_text editor_with_ghost).2 in
  FlatText.text (text_editor ed') = py "ab"
  ∧ suggestion ed' = (None, [])
  ∧ clear_ghost_text ed' = (Ok tt, ed').
Proof. vm_compute. done. Qed.

Lemma suggestion_state_consistent_witness :
  reachable editor_with_ghost ∧ suggestion_consistent editor_with_ghost.
Proof.
  split; [exact editor_with_ghost_reachable|].
  exact (proj1 (suggestion_state_consistent editor_with_ghost
                  editor_with_ghost_reachable)).
Defined.

(** ** The trigger gate *)

Section Trigger.
Context {W : Type} `{TW : TextWidget W}.
Implicit Types ed : CodeEditor W.

Lemma is_query_ret {A} (a : A) : is_query (ret (W:=W) a).
Proof. by split. Qed.

Lemma is_query_bind {A B} (m : M (W:=W) A) (k : A → M (W:=W) B) :
  is_query m → (∀ a, is_query (k a)) → is_query (bind m k).
Proof.
  intros [Hs Hv] Hk. split.
  - intros ed. unfold bind. specialize (Hs ed).
    destruct (m ed) as [[a|x] ed1]; simpl in *; subst; [|done].
    apply (Hk a).
  - intros ed ed' Ht Hg. unfold bind.
    pose proof (Hs ed) as H1. pose proof (Hs ed') as H2.
    specialize (Hv ed ed' Ht Hg).
    destruct (m ed) as [r1 ed1], (m ed') as [r2 ed2]; simpl in *; subst.
    destruct r2 as [a|x]; [|done]. by apply (Hk a).
Qed.

Lemma is_query_ask {A} (q : W → option A) : is_query (ask q).
Proof.
  split.
  - intros ed. unfold ask. by destruct (q _).
  - intros ed ed' Ht _. unfold ask. rewrite Ht. by destruct (q _).
Qed.

Lemma is_query_ghost : is_query (gets (ghost_text_start_pos (W:=W))).
Proof. split; [done|]. intros ed ed' _ Hg. unfold gets. simpl. by rewrite Hg. Qed.

Ltac query :=
  repeat first
    [ apply is_query_ret | apply is_query_ask | apply is_query_ghost
    | apply is_query_bind; [|intros ?]
    | match goal with
      | |- is_query (if ?b then _ else _) => destruct b
      | |- is_query (match ?x with _ => _ end) => destruct x
      end ].

Lemma is_query_collect_lines line_nums : is_query (collect_lines (W:=W) line_nums).
Proof.
  induction line_nums as [|n ns IH]; simpl; [query|].
  apply is_query_bind; [query|intros ?].
  apply is_query_bind; [exact IH|intros ?]. query.
Qed.

(** Extracting the context window only looks at the document. *)
Lemma is_query_context : is_query (get_context_around_cursor (W:=W)).
Proof.
  unfold get_context_around_cursor. cbv zeta.
  apply is_query_bind; [query|intros p].
  apply is_query_bind; [query|intros g].
  apply is_query_bind; [query|intros l].
  apply is_query_bind; [apply is_query_collect_lines|intros lb].
  apply is_query_bind; [query|intros q].
  apply is_query_bind; [apply is_query_collect_lines|intros la]. query.
Qed.

Lemma is_query_logical_end l : is_query (logical_line_end_col (W:=W) l).
Proof. unfold logical_line_end_col. query. Qed.

Lemma query_run {A} (m : M (W:=W) A) ed ed' :
  is_query m → text_editor ed' = text_editor ed →
  ghost_text_start_pos ed' = ghost_text_start_pos ed →
  m ed' = ((m ed).1, ed').
Proof.
  intros [Hs Hv] Ht Hg. rewrite (surjective_pairing (m ed')).
  by rewrite Hs, (Hv ed' ed Ht Hg).
Qed.

(** [request_ai_completion] behind its own debounce: what it returns and
    the state it leaves, by what the document shows. *)
Lemma request_gate_open ed now engine :
  ai_engine ed = Some engine → ai_enabled_var ed = true →
  (now - last_completion_request ed <? 0.5)%float = false →
  let ed1 := with_last_completion_request now ed in
  request_ai_completion now ed =
    match (get_context_around_cursor ed).1 with
    | Raise x => (Raise x, ed1)
    | Ok (context_before, current_line, context_after) =>
        match w_index (text_editor ed) INSERT with
        | None => (Raise TclError, ed1)
        | Some cursor_pos =>
            match (logical_line_end_col (pos_line cursor_pos) ed).1 with
            | Raise x => (Raise x, ed1)
            | Ok logical_end =>
                if length (strip current_line) <? 1 then (Ok None, ed1)
                else if (Z.of_nat (pos_col cursor_pos) <? Z.of_nat logical_end - 1)%Z
                then (Ok None, ed1)
                else (Ok (Some {| arg_context_before := context_before;
                                  arg_current_line := current_line;
                                  arg_context_after := context_after;
                                  arg_cursor_pos := cursor_pos |}),
                      with_status (py "Requesting AI completion...") ed1)
            end
        end
    end.
Proof.
  intros He Hen Hq ed1. unfold request_ai_completion, bind, gets, modify. simpl.
  rewrite He, Hen. simpl. rewrite Hq. fold ed1.
  rewrite (query_run get_context_around_cursor ed ed1 is_query_context eq_refl eq_refl).
  destruct (get_context_around_cursor ed).1 as [[[cb cl] ca]|x]; [|done].
  unfold ask at 1. simpl.
  destruct (w_index (text_editor ed) INSERT) as [cursor_pos|]; [|done].
  rewrite (query_run (logical_line_end_col (pos_line cursor_pos)) ed ed1
             (is_query_logical_end _) eq_refl eq_refl).
  destruct (logical_line_end_col (pos_line cursor_pos) ed).1 as [logical_end|x]; [|done].
  destruct (length (strip cl) <? 1); [done|].
  destruct (Z.of_nat (pos_col cursor_pos) <? Z.of_nat logical_end - 1)%Z; done.
Qed.

(** The context's current line and the logical end of the line, read off
    the document: up to the anchor when a suggestion is anchored on the
    cursor's line, up to the cursor and the end of the line otherwise. *)
Lemma context_current_line ed cursor_pos cb cl ca :
  w_index (text_editor ed) INSERT = Some cursor_pos →
  (get_context_around_cursor ed).1 = Ok (cb, cl, ca) →
  w_get (text_editor ed) (At (Pos (pos_line cursor_pos) 0))
    (match anchor_on_line (ghost_text_start_pos ed) (pos_line cursor_pos) with
     | Some g => At g
     | None => At cursor_pos
     end) = Some cl.
Proof.
  intros Hc. unfold get_context_around_cursor. cbv zeta.
  unfold bind at 1. unfold ask at 1. rewrite Hc.
  unfold bind at 1. unfold gets at 1.
  unfold bind at 1.
  destruct (anchor_on_line _ _) as [g|]; unfold ask at 1;
    (destruct (w_get _ _ _) as [line|]; [|done]);
    unfold bind;
    repeat (match goal with
            | |- context [match ?m ?e with _ => _ end] =>
                destruct (m e) as [[?|?] ?]; simpl; try done
            end);
    unfold ret; simpl; congruence.
Qed.

Lemma logical_end_value ed l logical_end :
  (logical_line_end_col l ed).1 = Ok logical_end →
  match anchor_on_line (ghost_text_start_pos ed) l with
  | Some g => logical_end = pos_col g
  | None => ∃ p, w_index (text_editor ed) (LineEnd l) = Some p ∧ logical_end = pos_col p
  end.
Proof.
  unfold logical_line_end_col, bind, gets, ask, ret. simpl.
  destruct (anchor_on_line _ _) as [g|]; simpl; [congruence|].
  destruct (w_index _ _) as [p|]; simpl; [|done]. intros [= <-]. eauto.
Qed.

End Trigger.

Section Gate.
Context {W : Type} `{TW : TextWidget W}.
Implicit Types ed : CodeEditor W.

(** X25. The trigger gate where the cursor is at most one character
    past the logical end.  For a trigger that passes the editor's own
    checks (engine present, completion enabled, 0.5 s debounce): the
    current line of the context is the text of the cursor's line up to the
    anchor when a suggestion is anchored on that line and up to the cursor
    otherwise; the logical end is the anchor column in the first case and
    the end of the line in the second; no worker is started when that
    current line strips to empty or when the cursor is more than one
    character before the logical end; a worker is started, with the
    context and the cursor position, when the line is not blank and the
    cursor is within one character of the logical end. *)
Theorem trigger_gate ed (now : float) engine (cursor_pos : position)
    (context_before current_line context_after : str) (logical_end : nat) :
  ai_engine ed = Some engine →
  ai_enabled_var ed = true →
  (now - last_completion_request ed <? 0.5)%float = false →
  w_index (text_editor ed) INSERT = Some cursor_pos →
  (get_context_around_cursor ed).1 = Ok (context_before, current_line, context_after) →
  (logical_line_end_col (pos_line cursor_pos) ed).1 = Ok logical_end →
  let anchor := anchor_on_line (ghost_text_start_pos ed) (pos_line cursor_pos) in
  w_get (text_editor ed) (At (Pos (pos_line cursor_pos) 0))
    (match anchor with Some g => At g | None => At cursor_pos end) = Some current_line
  ∧ match anchor with
    | Some g => logical_end = pos_col g
    | None => ∃ p, w_index (text_editor ed) (LineEnd (pos_line cursor_pos)) = Some p
                   ∧ logical_end = pos_col p
    end
  ∧ (strip current_line = [] ∨ pos_col cursor_pos + 1 < logical_end →
     (request_ai_completion now ed).1 = Ok None)
  ∧ (strip current_line ≠ [] →
     pos_col cursor_pos ≤ logical_end + 1 ∧ logical_end ≤ pos_col cursor_pos + 1 →
     (request_ai_completion now ed).1
     = Ok (Some {| arg_context_before := context_before;
                   arg_current_line := current_line;
                   arg_context_after := context_after;
                   arg_cursor_pos := cursor_pos |})).
Proof.
  intros He Hen Hq Hc Hctx Hend anchor.
  pose proof (request_gate_open ed now engine He Hen Hq) as Hreq.
  simpl in Hreq. rewrite Hctx, Hc, Hend in Hreq.
  split; [by eapply context_current_line|].
  split; [by apply logical_end_value|].
  split.
  - intros Hrej. rewrite Hreq.
    destruct (length (strip current_line) <? 1) eqn:L; [done|].
    apply Nat.ltb_ge in L.
    destruct Hrej as [Hs|Hlt]; [rewrite Hs in L; simpl in L; lia|].
    destruct (Z.of_nat (pos_col cursor_pos) <? Z.of_nat logical_end - 1)%Z eqn:Z;
      [done|]. apply Z.ltb_ge in Z. lia.
  - intros Hs [_ Hle]. rewrite Hreq.
    destruct (length (strip current_line) <? 1) eqn:L.
    { apply Nat.ltb_lt in L. destruct (strip current_line); [done|simpl in L; lia]. }
    destruct (Z.of_nat (pos_col cursor_pos) <? Z.of_nat logical_end - 1)%Z eqn:Z;
      [|done]. apply Z.ltb_lt in Z. lia.
Qed.

Lemma request_gate_closed ed now engine :
  ai_engine ed = Some engine → ai_enabled_var ed = true →
  (now - last_completion_request ed <? 0.5)%float = true →
  request_ai_completion now ed = (Ok None, ed).
Proof.
  intros He Hen Hq. unfold request_ai_completion, bind, gets. simpl.
  rewrite He, Hen. simpl. by rewrite Hq.
Qed.


End Gate.

(** C6, where the code departs from it.  After the End key the cursor
    stands at column 5, three characters past the logical end of its line
    (the anchor of the suggestion [foo], column 2), and the trigger still
    starts a worker, for the cursor position 1.5.  What follows: when that
    worker's completion [abfoo] is shown, the old suggestion is taken out,
    the new ghost text [foo] goes into the document at column 2, the end
    of the line, and the editor records column 5 as its anchor; the next
    dismissal looks for the suggestion at column 5, does not find it
    there, forgets it and leaves [foo] in the document. *)
Theorem request_issued_past_logical_end :
  reachable editor_after_end_key
  ∧ w_index (text_editor editor_after_end_key) INSERT = Some (Pos 1 5)
  ∧ anchor_on_line (ghost_text_start_pos editor_after_end_key) 1 = Some (Pos 1 2)
  ∧ (logical_line_end_col 1 editor_after_end_key).1 = Ok 2
  ∧ ¬ Spec.within_one_character 5 2
  ∧ (request_ai_completion 10 editor_after_end_key).1 = Ok (Some late_args)
  ∧ last (_get_completion_async 10 (answer "abfoo") late_args
            (handle (EvTrigger 10) editor_after_end_key)).1
    = Some (ShowCompletion (py "abfoo") (Pos 1 5))
  ∧ FlatText.text (text_editor editor_after_late_answer) = py "abfoo"
  ∧ suggestion editor_after_late_answer = (Some (Pos 1 5), py "foo")
  ∧ FlatText.text (text_editor (clear_ghost_text editor_after_late_answer).2)
    = py "abfoo"
  ∧ suggestion (clear_ghost_text editor_after_late_answer).2 = (None, []).
Proof.
  split; [exact editor_after_end_key_reachable|].
  split; [vm_compute; reflexivity|]. split; [vm_compute; reflexivity|].
  split; [vm_compute; reflexivity|].
  split; [unfold Spec.within_one_character; lia|].
  split; [vm_compute; reflexivity|].
  split; [vm_compute; reflexivity|]. vm_compute. done.
Qed.

Lemma trigger_gate_witness :
  (request_ai_completion 10 three_line_editor).1
  = Ok (Some {| arg_context_before := py "x"; arg_current_line := py "ab";
                arg_context_after := py " y"; arg_cursor_pos := Pos 2 2 |}).
Proof.
  refine (proj2 (proj2 (proj2
    (trigger_gate three_line_editor 10 demo_engine (Pos 2 2)
       (py "x") (py "ab") (py " y") 2 _ _ _ _ _ _))) _ _);
    (vm_compute; first [reflexivity | discriminate | lia]).
Defined.

(** ** Rate limiting and provider failures *)

Section Pipeline.
Context {W : Type} `{TW : TextWidget W}.
Implicit Types (ed : CodeEditor W) (e : AICompletionEngine).




(** C8. When the provider raises during [get_completion] (the call was
    admitted, missed the cache and reached the provider), the exception
    stops there: [get_completion] returns no completion, the cache is as
    before, the provider has been called exactly once, without a retry,
    and the rate limiter holds the time of this admitted call.  The
    worker that made the call ends normally as well: it schedules the chat
    panes and the status message, no completion to show, and changes
    nothing in the editor but the engine. *)
Theorem provider_failure_contained e (now : float)
    (respond : ChatRequest → ProviderOutcome) (cb cl ca msg : str) :
  (_should_debounce now e).1 = Ok false →
  PyDict.mem (_create_cache_key cb ca cl) (_completion_cache e) = false →
  client e = true →
  respond (chat_request e (_build_completion_prompt cb cl ca)) = PRaise msg →
  let out := get_completion now respond cb cl ca e in
  out.1 = Ok None
  ∧ _completion_cache out.2 = _completion_cache e
  ∧ api_log out.2 = api_log e ++ [chat_request e (_build_completion_prompt cb cl ca)]
  ∧ _last_request_time out.2 = (now * 1000)%float
  ∧ config out.2 = config e
  ∧ last_response out.2 = Some (py "ERROR: " ++ msg)
  ∧ (∀ ed cursor_pos,
       ai_engine ed = Some e →
       _get_completion_async now respond
         {| arg_context_before := cb; arg_current_line := cl;
            arg_context_after := ca; arg_cursor_pos := cursor_pos |} ed
       = ([UpdateChatRequest (_build_completion_prompt cb cl ca);
           UpdateChatResponse (py "ERROR: " ++ msg);
           UpdateStatus (py "No completion available")],
          with_ai_engine (Some out.2) ed)).
Proof.
  intros Hadm Hmiss Hclient Hraise out.
  assert (out = (Ok None,
                 set_last_response (Some (py "ERROR: " ++ msg))
                   (log_request (chat_request e (_build_completion_prompt cb cl ca))
                      (set_last_request_prompt (Some (_build_completion_prompt cb cl ca))
                         (set_last_request_time (now * 1000)%float (reset_chat e))))))
    as Hout.
  { unfold out, get_completion. revert Hadm. unfold _should_debounce.
    cbn [config set_last_response set_last_request_prompt _last_request_time].
    destruct (float_lt _ _) as [[|]|]; [done| |done]. intros _.
    cbn [_completion_cache set_last_request_time set_last_response
         set_last_request_prompt client negb].
    rewrite Hmiss, Hclient. cbn [negb].
    change (chat_request (set_last_request_prompt _ _) ?p) with (chat_request e p).
    by rewrite Hraise. }
  rewrite Hout. split_and!; try done.
  intros ed cursor_pos He. unfold _get_completion_async. rewrite He.
  cbn [arg_context_before arg_current_line arg_context_after arg_cursor_pos].
  fold out. rewrite Hout.
  assert (∃ c rest, _build_completion_prompt cb cl ca = c :: rest)
    as (c & rest & Hp) by (eexists _, _; reflexivity).
  rewrite Hp. reflexivity.
Qed.



End Pipeline.



(** A request answered by the provider is cached under its fingerprint. *)
Example first_request_cached :
  _completion_cache first_request_engine = [(py "a", py "x = 1")]
  ∧ length (api_log first_request_engine) = 1.
Proof. vm_compute. done. Qed.

Lemma provider_failure_contained_witness :
  (get_completion 10 failing [] (py "a") [] demo_engine).1 = Ok None
  ∧ _completion_cache (get_completion 10 failing [] (py "a") [] demo_engine).2 = [].
Proof.
  pose proof (provider_failure_contained (W:=FlatText.t) demo_engine 10 failing
                [] (py "a") [] (py "connection reset")) as H.
  split.
  - refine (proj1 (H _ _ _ _)); vm_compute; reflexivity.
  - refine (proj1 (proj2 (H _ _ _ _))); vm_compute; reflexivity.
Defined.

(** * Further properties of the code *)

(** ** The engine *)

Section EngineMore.
Implicit Types (e : AICompletionEngine) (now : float).

Lemma should_debounce_reset now e :
  (_should_debounce now (reset_chat e)).1 = (_should_debounce now e).1.
Proof. unfold _should_debounce. simpl. by repeat case_match. Qed.

(** A call whose rate check raises ends there. *)
Lemma get_completion_raised now (respond : ChatRequest → ProviderOutcome)
    (cb cl ca : str) e x :
  (_should_debounce now e).1 = Raise x →
  get_completion now respond cb cl ca e = (Raise x, reset_chat e).
Proof.
  unfold get_completion.
  change (set_last_response None (set_last_request_prompt None e)) with (reset_chat e).
  rewrite <- should_debounce_reset.
  destruct (_should_debounce now (reset_chat e)) as [[[|]|y] e'] eqn:E;
    simpl; try done.
  intros [= ->]. by apply should_debounce_raise in E as ->.
Qed.

(** X1. The provider is called by admitted requests only, and every
    admitted request moves the rate limiter's timestamp.  Whatever a call
    to [get_completion] does: unless the rate limiter's comparison (the
    current reading times 1000, minus the stored timestamp, against the
    delay) comes out false, the call leaves the stored timestamp, the
    provider log and the cache as they were; when it comes out false, the
    call stores the current reading times 1000 as the new timestamp; so a
    call that reaches the provider is one for which the computed gap was
    not below the delay, and it leaves its own time behind for the next
    comparison. *)
Theorem provider_calls_spaced e now (respond : ChatRequest → ProviderOutcome)
    (cb cl ca : str) :
  let e' := (get_completion now respond cb cl ca e).2 in
  let gap_below_delay :=
    float_lt (now * 1000 - _last_request_time e) (delay_of e) in
  (gap_below_delay ≠ Some false →
     _last_request_time e' = _last_request_time e
     ∧ api_log e' = api_log e
     ∧ _completion_cache e' = _completion_cache e)
  ∧ (gap_below_delay = Some false →
     _last_request_time e' = (now * 1000)%float)
  ∧ (api_log e' ≠ api_log e →
     gap_below_delay = Some false
     ∧ _last_request_time e' = (now * 1000)%float).
Proof.
  intros e' gap_below_delay.
  pose proof (should_debounce_unfold now e) as Hu. fold gap_below_delay in Hu.
  assert (gap_below_delay ≠ Some false →
          _last_request_time e' = _last_request_time e
          ∧ api_log e' = api_log e
          ∧ _completion_cache e' = _completion_cache e) as H1.
  { intros Hne. unfold e'. destruct gap_below_delay as [[|]|]; [|done|].
    - by rewrite get_completion_suppressed by by rewrite Hu.
    - by rewrite (get_completion_raised _ _ _ _ _ _ TypeError) by by rewrite Hu. }
  assert (gap_below_delay = Some false →
          _last_request_time e' = (now * 1000)%float) as H2.
  { intros Hg. apply get_completion_admitted_time. by rewrite Hu, Hg. }
  split; [exact H1|]. split; [exact H2|].
  intros Hlog. destruct (decide (gap_below_delay = Some false)) as [Hg|Hg]; [auto|].
  by destruct (H1 Hg) as (_ & ? & _).
Qed.

(** X2. A delay in the configuration that is not a number (a string,
    [null], a list or an object) makes [get_completion] raise [TypeError]
    before it looks at the cache or calls the provider; the engine keeps
    its timestamp, cache and log.  The worker thread catches the exception
    and schedules one function, the one that is to show "Completion
    error: ..." in the status bar.  When the interaction thread runs that
    function, it raises [NameError] and the editor, its status included,
    stays as it is: the error is never shown. *)
Theorem non_numeric_delay_raises {W : Type} `{TW : TextWidget W} e now
    (respond : ChatRequest → ProviderOutcome) (args : ThreadArgs) :
  is_number (delay_of e) = false →
  get_completion now respond (arg_context_before args) (arg_current_line args)
    (arg_context_after args) e = (Raise TypeError, reset_chat e)
  ∧ ∀ ed : CodeEditor W,
      ai_engine ed = Some e →
      let out := _get_completion_async now respond args ed in
      out = ([CompletionErrorStatus], with_ai_engine (Some (reset_chat e)) ed)
      ∧ status_label out.2 = status_label ed
      ∧ Forall (λ cb, run_callback cb out.2 = (Raise NameError, out.2)) out.1.
Proof.
  intros Hd.
  assert (get_completion now respond (arg_context_before args)
            (arg_current_line args) (arg_context_after args) e
          = (Raise TypeError, reset_chat e)) as H.
  { apply get_completion_raised. rewrite should_debounce_unfold.
    by destruct (delay_of e). }
  split; [exact H|]. intros ed He out.
  assert (out = ([CompletionErrorStatus], with_ai_engine (Some (reset_chat e)) ed))
    as ->.
  { unfold out, _get_completion_async. by rewrite He, H. }
  split; [done|]. split; [done|]. by apply Forall_singleton.
Qed.

(** X3. Without a client an admitted request that misses the cache
    builds and records the prompt and returns no completion: the provider
    is not called and the cache is left as it is. *)
Theorem no_client_no_call e now (respond : ChatRequest → ProviderOutcome)
    (cb cl ca : str) :
  (_should_debounce now e).1 = Ok false →
  PyDict.mem (_create_cache_key cb ca cl) (_completion_cache e) = false →
  client e = false →
  let out := get_completion now respond cb cl ca e in
  out.1 = Ok None
  ∧ api_log out.2 = api_log e
  ∧ _completion_cache out.2 = _completion_cache e
  ∧ last_request_prompt out.2 = Some (_build_completion_prompt cb cl ca)
  ∧ last_response out.2 = None.
Proof.
  intros Hadm Hmiss Hc. revert Hadm.
  unfold get_completion, _should_debounce. simpl.
  destruct (float_lt _ _) as [[|]|]; [done| |done]. intros _. simpl.
  rewrite Hmiss. simpl. rewrite Hc. simpl. done.
Qed.

(** X4. When the provider answers without content (no choice at all,
    or a first choice whose content is [None] or empty), the request
    returns no completion, records "No completion received", has called
    the provider once and leaves the cache as it is. *)
Theorem empty_answer_not_cached e now (respond : ChatRequest → ProviderOutcome)
    (cb cl ca : str) (choices : list (option str)) :
  (_should_debounce now e).1 = Ok false →
  PyDict.mem (_create_cache_key cb ca cl) (_completion_cache e) = false →
  client e = true →
  respond (chat_request e (_build_completion_prompt cb cl ca)) = PResponse choices →
  (choices = [] ∨ (∃ rest, choices = None :: rest) ∨ (∃ rest, choices = Some [] :: rest)) →
  let out := get_completion now respond cb cl ca e in
  out.1 = Ok None
  ∧ _completion_cache out.2 = _completion_cache e
  ∧ api_log out.2 = api_log e ++ [chat_request e (_build_completion_prompt cb cl ca)]
  ∧ last_response out.2 = Some (py "No completion received").
Proof.
  intros Hadm Hmiss Hc Hr Hch. revert Hadm.
  unfold get_completion, _should_debounce. simpl.
  destruct (float_lt _ _) as [[|]|]; [done| |done]. intros _. simpl.
  rewrite Hmiss. simpl. rewrite Hc. simpl.
  change (chat_request (set_last_request_prompt _ _) ?p) with (chat_request e p).
  rewrite Hr.
  destruct Hch as [->|[[rest ->]|[rest ->]]]; done.
Qed.

Lemma get_snoc_fresh k v (d : list (str * str)) :
  PyDict.mem k d = false → PyDict.get k (d ++ [(k, v)]) = Some v.
Proof.
  induction d as [|[k' v'] d IH]; simpl.
  - intros _. by rewrite decide_True.
  - destruct (decide (k' = k)).
    + by rewrite bool_decide_eq_true_2.
    + rewrite bool_decide_eq_false_2 by done. simpl. exact IH.
Qed.

(** What was just stored under a new key is found under that key. *)
Lemma get_cache_store_fresh k v (cache : list (str * str)) :
  PyDict.mem k cache = false → PyDict.get k (cache_store k v cache) = Some v.
Proof.
  intros H. rewrite cache_store_fresh by done.
  destruct (50 <? S (length cache)) eqn:L; [|by apply get_snoc_fresh].
  destruct cache as [|[k0 v0] cache]; [done|].
  simpl in *. destruct (decide (k0 = k)).
  - by rewrite bool_decide_eq_true_2 in H.
  - rewrite bool_decide_eq_false_2 in H by done. by apply get_snoc_fresh.
Qed.

Lemma get_mem k (d : list (str * str)) v : PyDict.get k d = Some v → PyDict.mem k d = true.
Proof.
  induction d as [|[k' v'] d IH]; simpl; [done|].
  destruct (decide (k' = k)).
  - by rewrite bool_decide_eq_true_2.
  - rewrite bool_decide_eq_false_2 by done. exact IH.
Qed.

(** The outcome of a request that reaches the provider and gets content. *)
Lemma get_completion_stores e now (respond : ChatRequest → ProviderOutcome)
    (cb cl ca content : str) (rest : list (option str)) :
  (_should_debounce now e).1 = Ok false →
  PyDict.mem (_create_cache_key cb ca cl) (_completion_cache e) = false →
  client e = true →
  respond (chat_request e (_build_completion_prompt cb cl ca))
    = PResponse (Some content :: rest) →
  content ≠ [] →
  let out := get_completion now respond cb cl ca e in
  out.1 = Ok (Some (strip content))
  ∧ _completion_cache out.2
    = cache_store (_create_cache_key cb ca cl) (strip content) (_completion_cache e)
  ∧ api_log out.2 = api_log e ++ [chat_request e (_build_completion_prompt cb cl ca)]
  ∧ last_request_prompt out.2 = Some (_build_completion_prompt cb cl ca)
  ∧ last_response out.2 = Some (strip content).
Proof.
  intros Hadm Hmiss Hc Hr Hne. revert Hadm.
  unfold get_completion, _should_debounce. simpl.
  destruct (float_lt _ _) as [[|]|]; [done| |done]. intros _. simpl.
  rewrite Hmiss. simpl. rewrite Hc. simpl.
  change (chat_request (set_last_request_prompt _ _) ?p) with (chat_request e p).
  rewrite Hr. destruct content; done.
Qed.

(** X5. A provider answer that is whitespace only counts as an
    answer: the request returns the empty completion and stores it in the
    cache under the fingerprint, where a later lookup finds it.  The
    worker then has no completion to show: it schedules the chat request
    pane and the status "No completion available". *)
Theorem blank_answer_cached_as_empty {W : Type} e now
    (respond : ChatRequest → ProviderOutcome) (args : ThreadArgs)
    (content : str) (rest : list (option str)) :
  let cb := arg_context_before args in
  let cl := arg_current_line args in
  let ca := arg_context_after args in
  (_should_debounce now e).1 = Ok false →
  PyDict.mem (_create_cache_key cb ca cl) (_completion_cache e) = false →
  client e = true →
  respond (chat_request e (_build_completion_prompt cb cl ca))
    = PResponse (Some content :: rest) →
  content ≠ [] →
  strip content = [] →
  let out := get_completion now respond cb cl ca e in
  out.1 = Ok (Some [])
  ∧ PyDict.get (_create_cache_key cb ca cl) (_completion_cache out.2) = Some []
  ∧ ∀ ed : CodeEditor W,
      ai_engine ed = Some e →
      _get_completion_async now respond args ed
      = ([UpdateChatRequest (_build_completion_prompt cb cl ca);
          UpdateStatus (py "No completion available")],
         with_ai_engine (Some out.2) ed).
Proof.
  intros cb cl ca Hadm Hmiss Hc Hr Hne Hs out.
  destruct (get_completion_stores e now respond cb cl ca content rest
              Hadm Hmiss Hc Hr Hne) as (H1 & H2 & H3 & H4 & H5).
  fold out in H1, H2, H3, H4, H5. rewrite Hs in *.
  split; [done|]. split; [rewrite H2; by apply get_cache_store_fresh|].
  intros ed He. unfold _get_completion_async. rewrite He.
  fold cb cl ca out. destruct out as [r e']. simpl in *. subst r.
  unfold get_last_chat_info. rewrite H4, H5.
  assert (∃ c p, _build_completion_prompt cb cl ca = c :: p)
    as (c & p & Hp) by (eexists _, _; reflexivity).
  rewrite Hp. reflexivity.
Qed.

(** X6. Store and look up: after a request that reached the provider
    and got content, the next admitted request with the same fingerprint
    is answered from the cache with the same, stripped, completion and
    does not call the provider. *)
Theorem cached_completion_replayed e now1 now2
    (respond1 respond2 : ChatRequest → ProviderOutcome)
    (cb1 cl1 ca1 cb2 cl2 ca2 content : str) (rest : list (option str)) :
  (_should_debounce now1 e).1 = Ok false →
  PyDict.mem (_create_cache_key cb1 ca1 cl1) (_completion_cache e) = false →
  client e = true →
  respond1 (chat_request e (_build_completion_prompt cb1 cl1 ca1))
    = PResponse (Some content :: rest) →
  content ≠ [] →
  let out1 := get_completion now1 respond1 cb1 cl1 ca1 e in
  (_should_debounce now2 out1.2).1 = Ok false →
  _create_cache_key cb2 ca2 cl2 = _create_cache_key cb1 ca1 cl1 →
  let out2 := get_completion now2 respond2 cb2 cl2 ca2 out1.2 in
  out1.1 = Ok (Some (strip content))
  ∧ out2.1 = Ok (Some (strip content))
  ∧ api_log out2.2 = api_log out1.2
  ∧ _completion_cache out2.2 = _completion_cache out1.2.
Proof.
  intros Hadm Hmiss Hc Hr Hne out1 Hadm2 Hkey out2.
  destruct (get_completion_stores e now1 respond1 cb1 cl1 ca1 content rest
              Hadm Hmiss Hc Hr Hne) as (H1 & H2 & _).
  fold out1 in H1, H2.
  assert (PyDict.get (_create_cache_key cb2 ca2 cl2) (_completion_cache out1.2)
          = Some (strip content)) as Hget.
  { rewrite Hkey, H2. by apply get_cache_store_fresh. }
  destruct (get_completion_hit now2 respond2 cb2 cl2 ca2 out1.2 Hadm2
              (get_mem _ _ _ Hget)) as (G1 & G2 & G3).
  fold out2 in G1, G2, G3. rewrite Hget in G1. done.
Qed.

Lemma keys_snoc (d : list (str * str)) k v :
  PyDict.keys (d ++ [(k, v)]) = PyDict.keys d ++ [k].
Proof. unfold PyDict.keys. by rewrite fmap_app. Qed.

Lemma cache_store_NoDup k v (cache : list (str * str)) :
  PyDict.mem k cache = false →
  NoDup (PyDict.keys cache) → NoDup (PyDict.keys (cache_store k v cache)).
Proof.
  intros Hk Hnd. rewrite cache_store_fresh by done.
  assert (NoDup (PyDict.keys (cache ++ [(k, v)]))) as H.
  { rewrite keys_snoc. apply NoDup_app. split; [done|]. split.
    - intros x Hx ->%list_elem_of_singleton. by apply mem_false_iff in Hk.
    - apply NoDup_singleton. }
  destruct (50 <? S (length cache)); [|done].
  unfold PyDict.keys in *. rewrite fmap_drop.
  destruct ((cache ++ [(k, v)]).*1) as [|x l]; [done|].
  simpl. by apply NoDup_cons in H as [_ H].
Qed.

(** X7. The cache of an engine never holds a fingerprint twice, so the
    cache size that [get_stats] reports is the number of distinct
    fingerprints held, and it is at most 50. *)
Theorem cache_keys_distinct e :
  engine_reachable e →
  NoDup (PyDict.keys (_completion_cache e))
  ∧ cache_size (get_stats e) = length (PyDict.keys (_completion_cache e))
  ∧ cache_size (get_stats e) ≤ 50.
Proof.
  intros Hr. split; [|split].
  - induction Hr as [cfg|now respond cb cl ca e _ IH]; [apply NoDup_nil_2|].
    destruct (get_completion_cache now respond cb cl ca e)
      as [->|(Hmiss & completion & _ & ->)]; [done|].
    by apply cache_store_NoDup.
  - unfold PyDict.keys. by rewrite length_fmap.
  - by apply engine_reachable_cache_bound.
Qed.

(** X8. A fingerprint holds no space and no newline, and it is at most
    150 characters longer than the current line. *)
Theorem fingerprint_bounded (context_before context_after cursor_line : str) :
  let key := _create_cache_key context_before context_after cursor_line in
  (space ∉ key) ∧ (newline ∉ key)
  ∧ length key ≤ 150 + length cursor_line.
Proof.
  unfold _create_cache_key, remove_char, last_chars. split; [|split].
  - intros (_ & (H & _)%list_elem_of_filter)%list_elem_of_filter. done.
  - intros (H & _)%list_elem_of_filter. done.
  - etransitivity; [apply length_filter|].
    etransitivity; [apply length_filter|].
    rewrite !length_app, length_drop, length_take. lia.
Qed.

(** X9. The launcher's [check_config] and the engine's
    [_setup_openai_client] read the configuration alike, up to the type
    of the key.  The launcher rejects a configuration exactly when the
    engine's set-up raises before it looks at the type of the key: with
    [AttributeError] on a configuration that is not an object, with
    "Please set your OpenAI API key" on a key that is missing, false or
    the placeholder.  A configuration the launcher accepts is an object
    with a key that is true and not the placeholder; the engine then
    raises [TypeError] when the key has no length (a number or [true]),
    and otherwise hands the key to the constructor of the client and gets
    an engine with a fresh cache when that returns.  So a key that is a
    number other than zero passes the launcher and leaves the editor
    without an engine. *)
Theorem check_config_agrees_with_setup (OpenAI : json → bool) (cfg : json) :
  (check_config cfg = false ↔
     _setup_openai_client OpenAI cfg = ConfigAttributeError
     ∨ _setup_openai_client OpenAI cfg = KeyNotSet)
  ∧ (check_config cfg = true →
     ∃ d api_key,
       cfg = JObject d ∧ d !! "openai_api_key"%string = Some api_key
       ∧ truthy api_key = true ∧ is_placeholder api_key = false
       ∧ _setup_openai_client OpenAI cfg
         = (if has_len api_key
            then if OpenAI api_key then ClientSet else ClientError
            else KeyTypeError)
       ∧ engine_new OpenAI cfg
         = (if has_len api_key && OpenAI api_key
            then inr (engine_init d)
            else inl (_setup_openai_client OpenAI cfg)))
  ∧ (∀ d n, cfg = JObject d → d !! "openai_api_key"%string = Some (JInt n) →
            n ≠ 0%Z →
            check_config cfg = true ∧ engine_new OpenAI cfg = inl KeyTypeError).
Proof.
  split; [|split].
  - unfold check_config, _setup_openai_client, config_get.
    destruct cfg as [|b|z|f|s|l|d]; simpl; try (split; [auto|done]).
    destruct (d !! "openai_api_key"%string) as [api_key|]; simpl;
      [|split; [auto|done]].
    destruct (truthy api_key), (is_placeholder api_key); simpl;
      try (split; [auto|done]).
    split; [done|]. destruct (has_len api_key); simpl; [|by intros [|]].
    destruct (OpenAI api_key); by intros [|].
  - unfold check_config, engine_new, _setup_openai_client, config_get.
    destruct cfg as [|b|z|f|s|l|d]; simpl; try done.
    destruct (d !! "openai_api_key"%string) as [api_key|] eqn:E; simpl; [|done].
    destruct (truthy api_key) eqn:T, (is_placeholder api_key) eqn:P; simpl;
      try done.
    intros _. exists d, api_key. split_and!; try done.
    + destruct (has_len api_key); simpl; [|done]. by destruct (OpenAI api_key).
    + destruct (has_len api_key); simpl; [|done]. by destruct (OpenAI api_key).
  - intros d n -> Hk Hn.
    unfold check_config, engine_new, _setup_openai_client, config_get.
    simpl. rewrite Hk. simpl.
    destruct (n =? 0)%Z eqn:Z; [apply Z.eqb_eq in Z; done|]. done.
Qed.

End EngineMore.

(** ** The overlap resolver, further *)

Section OverlapMore.
Implicit Types cw c : str.

(** The token scan of strategy 3, when reached, finds no token. *)
Lemma trim_token_loop_dead cw c :
  cw ≠ [] → contains (lower c) (lower cw) = false →
  (∀ t, t ∈ split c → startswith (lower t) (lower cw) = false)
  ∧ trim_token_loop (split c) (split c) cw c = c.
Proof.
  intros Hw Hc.
  assert (∀ t, t ∈ split c → startswith (lower t) (lower cw) = false) as H.
  { intros t Ht. destruct (startswith (lower t) (lower cw)) eqn:E; [|done].
    pose proof (token_rule_shadowed cw c t Ht E). congruence. }
  split; [exact H|]. by apply trim_token_loop_no_match.
Qed.

Lemma trim_is_drop cw c : ∃ n, _trim_completion_overlap cw c = drop n c.
Proof.
  unfold _trim_completion_overlap.
  destruct cw as [|a cw]; [by exists 0|].
  destruct (startswith _ _); [eauto|].
  destruct (contains _ _) eqn:C.
  - destruct (find _ _); [eauto|by exists 0].
  - exists 0. by apply trim_token_loop_dead.
Qed.

(** X10. The resolver only cuts a piece off the front: what it returns
    is a suffix of the completion it was given, and so never longer and
    never text the provider did not send. *)
Theorem trim_returns_suffix cw c :
  _trim_completion_overlap cw c `suffix_of` c
  ∧ length (_trim_completion_overlap cw c) ≤ length c.
Proof.
  destruct (trim_is_drop cw c) as [n ->]. split.
  - apply suffix_drop.
  - rewrite length_drop. lia.
Qed.

(** X11. On Latin-1 text: when the completion starts with the word
    being typed (up to case), the word followed by the resolver's output
    is the completion (up to case), and the output is shorter by the
    length of the word. *)
Theorem typed_word_plus_suffix cw c :
  latin1 cw → latin1 c →
  startswith (lower c) (lower cw) = true →
  lower (cw ++ _trim_completion_overlap cw c) = lower c
  ∧ length (_trim_completion_overlap cw c) = length c - length cw.
Proof.
  intros Lw Lc Hs. unfold _trim_completion_overlap.
  destruct cw as [|a cw]; [split; [done|simpl; lia]|].
  rewrite Hs. split; [|by rewrite length_drop].
  apply startswith_spec in Hs as [r Hr].
  rewrite lower_app, lower_drop, Hr by done.
  by rewrite <- (length_lower (a :: cw)), drop_app_length.
Qed.

(** X12. The token-prefix strategy is dead code: when the resolver gets
    to it (the word is not empty and occurs nowhere in the completion, up
    to case), no token of the completion starts with the word, and the
    loop falls through to returning the completion unchanged. *)
Theorem token_strategy_never_fires cw c :
  cw ≠ [] → contains (lower c) (lower cw) = false →
  (∀ t, t ∈ split c → startswith (lower t) (lower cw) = false)
  ∧ trim_token_loop (split c) (split c) cw c = c
  ∧ _trim_completion_overlap cw c = c.
Proof.
  intros Hw Hc. destruct (trim_token_loop_dead cw c Hw Hc) as [H1 H2].
  split; [done|]. split; [done|].
  unfold _trim_completion_overlap. destruct cw as [|a cw]; [done|].
  destruct (startswith (lower c) (lower (a :: cw))) eqn:E.
  - apply startswith_spec in E as [r Hr].
    assert (find (lower c) (lower (a :: cw)) = Some 0) as F.
    { apply find_Some_iff. split_and!; [lia| |intros; lia].
      rewrite drop_0. apply startswith_spec. eauto. }
    unfold contains in Hc. by rewrite F in Hc.
  - by rewrite Hc.
Qed.

End OverlapMore.

Lemma token_strategy_never_fires_witness :
  _trim_completion_overlap (py "zip") (py "the value is here") = py "the value is here".
Proof.
  refine (proj2 (proj2 (token_strategy_never_fires (py "zip") (py "the value is here") _ _)));
    [discriminate|vm_compute; reflexivity].
Defined.

Lemma typed_word_plus_suffix_witness :
  lower (py "PRI" ++ _trim_completion_overlap (py "PRI") (py "print(x)")) = lower (py "print(x)").
Proof.
  refine (proj1 (typed_word_plus_suffix (py "PRI") (py "print(x)") _ _ _)).
  - apply (bool_decide_unpack (Forall (λ c, (c < 256)%N) (py "PRI"))).
    vm_compute. exact I.
  - apply (bool_decide_unpack (Forall (λ c, (c < 256)%N) (py "print(x)"))).
    vm_compute. exact I.
  - vm_compute. reflexivity.
Defined.

(** ** The chat request pane *)

Section Truncate.
Implicit Types (s : str) (ls : list str).

Lemma split_on_cons sep s : ∃ piece pieces, split_on sep s = piece :: pieces.
Proof.
  induction s as [|c s (piece & pieces & IH)]; simpl; [eauto|].
  destruct (decide (c = sep)); [eauto|]. rewrite IH. eauto.
Qed.

Lemma join_cons_cons sep (p q : str) ls :
  join sep (p :: q :: ls) = p ++ sep ++ join sep (q :: ls).
Proof. done. Qed.

(** Joining what was split gives the text back. *)
Lemma join_split_on sep s : join [sep] (split_on sep s) = s.
Proof.
  induction s as [|c s IH]; simpl; [done|].
  destruct (split_on_cons sep s) as (piece & pieces & E).
  rewrite E in *. destruct (decide (c = sep)) as [->|].
  - rewrite join_cons_cons, IH. done.
  - rewrite <- IH. by destruct pieces.
Qed.

Lemma split_on_no_sep sep s : Forall (λ l, sep ∉ l) (split_on sep s).
Proof.
  induction s as [|c s IH]; simpl.
  - repeat constructor. by intros ?%elem_of_nil.
  - destruct (decide (c = sep)).
    + constructor; [by intros ?%elem_of_nil|done].
    + destruct (split_on sep s) as [|piece pieces].
      * repeat constructor. by intros ->%list_elem_of_singleton.
      * apply Forall_cons in IH as [H1 H2]. constructor; [|done].
        intros [->|H]%elem_of_cons; done.
Qed.

(** Splitting what was joined gives the lines back. *)
Lemma split_on_join sep ls :
  ls ≠ [] → Forall (λ l, sep ∉ l) ls → split_on sep (join [sep] ls) = ls.
Proof.
  induction ls as [|l ls IH]; [done|]. intros _ [Hl Hls]%Forall_cons.
  assert (∀ rest, split_on sep (l ++ sep :: rest)
                  = l :: split_on sep rest) as Hgo.
  { intros rest. induction l as [|c l IHl]; simpl.
    - by rewrite decide_True.
    - rewrite decide_False by (intros ->; apply Hl, list_elem_of_here).
      rewrite IHl; [done|]. intros H. by apply Hl, list_elem_of_further. }
  destruct ls as [|q ls].
  - simpl. clear IH Hgo. induction l as [|c l IHl]; simpl; [done|].
    rewrite decide_False by (intros ->; apply Hl, list_elem_of_here).
    rewrite IHl; [done|]. intros H. by apply Hl, list_elem_of_further.
  - rewrite join_cons_cons. simpl. rewrite Hgo. f_equal. by apply IH.
Qed.

Lemma truncate_lines_prefix ls :
  ∃ rest, join [ newline ] ls = join [ newline ] (truncate_lines ls) ++ rest.
Proof.
  induction ls as [|l ls (rest & IH)]; [by exists []|].
  cbn [truncate_lines]. destruct (mentions_no_explanations l).
  - destruct ls as [|q ls]; [exists []; by rewrite app_nil_r|].
    by exists ([ newline ] ++ join [ newline ] (q :: ls)).
  - destruct ls as [|q ls]; [exists []; by rewrite app_nil_r|].
    assert (∃ t ts, truncate_lines (q :: ls) = t :: ts) as (t & ts & E)
      by (simpl; destruct (mentions_no_explanations q); eauto).
    rewrite E in *. rewrite !join_cons_cons, IH. exists rest.
    by rewrite <- !app_assoc.
Qed.

Lemma truncate_lines_idem ls : truncate_lines (truncate_lines ls) = truncate_lines ls.
Proof.
  induction ls as [|l ls IH]; simpl; [done|].
  destruct (mentions_no_explanations l) eqn:E; simpl; rewrite E; [done|].
  by rewrite IH.
Qed.

Lemma truncate_lines_id ls :
  Forall (λ l, mentions_no_explanations l = false) ls → truncate_lines ls = ls.
Proof.
  induction 1 as [|l ls Hl _ IH]; simpl; [done|]. by rewrite Hl, IH.
Qed.

Lemma truncate_lines_sublist ls l : l ∈ truncate_lines ls → l ∈ ls.
Proof.
  induction ls as [|x ls IH]; simpl; [done|].
  destruct (mentions_no_explanations x).
  - intros ->%list_elem_of_singleton. apply list_elem_of_here.
  - intros [->|H]%elem_of_cons; [apply list_elem_of_here|].
    by apply list_elem_of_further, IH.
Qed.

(** X13. What [_truncate_request_message] shows of a request is a
    prefix of the request; a request none of whose lines mentions "no
    explanations" is shown whole; and truncating what was truncated
    changes nothing. *)
Theorem truncate_request_prefix s :
  _truncate_request_message s `prefix_of` s
  ∧ (Forall (λ l, mentions_no_explanations l = false) (split_on newline s) →
     _truncate_request_message s = s)
  ∧ _truncate_request_message (_truncate_request_message s)
    = _truncate_request_message s.
Proof.
  unfold _truncate_request_message. split; [|split].
  - destruct (truncate_lines_prefix (split_on newline s)) as [rest H].
    rewrite join_split_on in H. by exists rest.
  - intros H. by rewrite truncate_lines_id, join_split_on.
  - rewrite split_on_join.
    + by rewrite truncate_lines_idem.
    + destruct (split_on_cons newline s) as (p & ps & ->). simpl.
      by destruct (mentions_no_explanations p).
    + apply Forall_forall. intros l Hl%truncate_lines_sublist.
      revert l Hl. apply Forall_forall, split_on_no_sep.
Qed.

End Truncate.

(** ** The editor: who touches what *)

Section Frame.
Context {W : Type} `{TW : TextWidget W}.
Context {B : Type} (f : CodeEditor W → B).
Hypothesis f_text : ∀ w ed, f (with_text_editor w ed) = f ed.
Hypothesis f_suggestion : ∀ p c ed, f (with_suggestion p c ed) = f ed.
Hypothesis f_status : ∀ m ed, f (with_status m ed) = f ed.
Hypothesis f_stats : ∀ s ed, f (with_ai_stats s ed) = f ed.
Hypothesis f_last : ∀ t ed, f (with_last_completion_request t ed) = f ed.

Lemma preserves_ret {A} (a : A) : preserves f (ret (W:=W) a).
Proof using Type. by intros ed. Qed.

Lemma preserves_bind {A C} (m : M (W:=W) A) (k : A → M (W:=W) C) :
  preserves f m → (∀ a, preserves f (k a)) → preserves f (bind m k).
Proof using Type.
  intros Hm Hk ed. unfold bind. specialize (Hm ed).
  destruct (m ed) as [[a|x] ed1]; simpl in *; [|done].
  by rewrite Hk.
Qed.

Lemma preserves_ask {A} (q : W → option A) : preserves f (ask q).
Proof using Type. intros ed. unfold ask. by destruct (q _). Qed.

Lemma preserves_gets {A} (g : CodeEditor W → A) : preserves f (gets g).
Proof using Type. by intros ed. Qed.

Lemma preserves_tell (c : W → option W) : preserves f (tell c).
Proof using f_text. intros ed. unfold tell. destruct (c _); simpl; [apply f_text|done]. Qed.

Lemma preserves_status message : preserves f (update_status (W:=W) message).
Proof using f_status. intros ed. apply f_status. Qed.

Lemma preserves_stats : preserves f (_update_ai_stats (W:=W)).
Proof using f_stats.
  intros ed. unfold _update_ai_stats, modify. simpl.
  destruct (ai_engine ed); [apply f_stats|done].
Qed.

Lemma preserves_clear : preserves f (clear_ghost_text (W:=W)).
Proof using f_text f_suggestion.
  intros ed. unfold clear_ghost_text.
  destruct (ghost_text_start_pos ed), (current_completion ed); simpl; try done.
  by rewrite f_suggestion, f_text.
Qed.

Lemma preserves_guarded {A} (m : M (W:=W) A) : preserves f m → preserves f (guarded m).
Proof using Type.
  intros H ed. specialize (H ed). unfold guarded.
  by destruct (m ed) as [[a|x] ed'].
Qed.

Lemma preserves_modify_suggestion p c :
  preserves f (modify (with_suggestion (W:=W) p c)).
Proof using f_suggestion. intros ed. apply f_suggestion. Qed.

Lemma preserves_modify_last t :
  preserves f (modify (with_last_completion_request (W:=W) t)).
Proof using f_last. intros ed. apply f_last. Qed.

Ltac frame :=
  repeat first
    [ apply preserves_ret | apply preserves_ask | apply preserves_tell
    | apply preserves_gets | apply preserves_status | apply preserves_stats
    | apply preserves_clear | apply preserves_modify_suggestion
    | apply preserves_modify_last | apply preserves_guarded
    | apply preserves_bind; [|intros ?]
    | match goal with
      | |- preserves _ (if ?b then _ else _) => destruct b
      | |- preserves _ (match ?x with _ => _ end) => destruct x
      end ].

Lemma preserves_accept : preserves f (accept_completion (W:=W)).
Proof using f_text f_suggestion f_status.
  intros ed. unfold accept_completion.
  destruct (current_completion ed); [done|].
  destruct (ghost_text_start_pos ed); [|done].
  match goal with |- f (?m ed).2 = _ => assert (preserves f m) as H by frame end.
  apply H.
Qed.

Lemma preserves_show completion cursor_pos :
  preserves f (_show_completion (W:=W) completion cursor_pos).
Proof using f_text f_suggestion f_status f_stats.
  unfold _show_completion. cbv zeta. frame.
Qed.

Lemma preserves_key_press keysym : preserves f (on_key_press (W:=W) keysym).
Proof using f_text f_suggestion. unfold on_key_press. cbv zeta. frame. Qed.

Lemma preserves_tab : preserves f (on_tab_key (W:=W)).
Proof using f_text f_suggestion f_status.
  unfold on_tab_key. apply preserves_bind; [frame|intros [|]]; [|frame].
  apply preserves_bind; [apply preserves_accept|intros _]. frame.
Qed.

Lemma preserves_new_file : preserves f (new_file (W:=W)).
Proof using f_text f_suggestion f_status. unfold new_file. frame. Qed.

Lemma preserves_open_file file_path content :
  preserves f (open_file (W:=W) file_path content).
Proof using f_text f_suggestion f_status. unfold open_file. frame. Qed.

Lemma preserves_save_file file_path : preserves f (save_file (W:=W) file_path).
Proof using f_text f_suggestion f_status. unfold save_file. frame. Qed.

Lemma preserves_text_change keysym : preserves f (on_text_change (W:=W) keysym).
Proof using Type. unfold on_text_change. frame. Qed.

Lemma preserves_collect_lines line_nums : preserves f (collect_lines (W:=W) line_nums).
Proof using Type.
  induction line_nums as [|n ns IH]; simpl; [frame|].
  apply preserves_bind; [frame|intros ?].
  apply preserves_bind; [exact IH|intros ?]. frame.
Qed.

Lemma preserves_request now : preserves f (request_ai_completion (W:=W) now).
Proof using f_status f_last.
  unfold request_ai_completion, get_context_around_cursor, logical_line_end_col.
  cbv zeta.
  apply preserves_bind; [frame|intros engine].
  apply preserves_bind; [frame|intros enabled].
  destruct (_ || _); [frame|].
  apply preserves_bind; [frame|intros last].
  destruct (_ <? _)%float; [frame|].
  apply preserves_bind; [frame|intros _].
  apply preserves_bind.
  - apply preserves_bind; [frame|intros p].
    apply preserves_bind; [frame|intros g].
    apply preserves_bind; [frame|intros l].
    apply preserves_bind; [apply preserves_collect_lines|intros lb].
    apply preserves_bind; [frame|intros q].
    apply preserves_bind; [apply preserves_collect_lines|intros la]. frame.
  - intros [[cb cl] ca]. frame.
Qed.

Lemma preserves_callback cb : preserves f (run_callback (W:=W) cb).
Proof using f_text f_suggestion f_status f_stats.
  destruct cb; simpl; [frame|frame|apply preserves_show|frame|done].
Qed.

(** Every event but the run of a worker, and but an edit of the widget,
    goes through the methods above. *)
Lemma preserves_handle (ev : event W) ed :
  ui_event ev = true → f (handle ev ed) = f ed.
Proof using f_text f_suggestion f_status f_stats f_last.
  destruct ev; simpl; intros Hui; try done.
  - apply preserves_key_press.
  - apply preserves_clear.
  - apply preserves_tab.
  - apply preserves_new_file.
  - apply preserves_open_file.
  - apply preserves_save_file.
  - apply preserves_request.
  - apply preserves_callback.
  - apply preserves_clear.
  - apply preserves_accept.
Qed.

End Frame.

Section SingleWriter.
Context {W : Type} `{TW : TextWidget W}.
Implicit Types ed : CodeEditor W.

(** X14. The interaction thread never touches the engine: no key
    press, click, Tab, file command, trigger, scheduled callback,
    dismissal or acceptance changes the engine the editor holds (its
    cache, timestamp and provider log) or the switch that enables
    completion.  Only the worker thread does. *)
Theorem ui_events_keep_engine (ev : event W) ed :
  ui_event ev = true →
  ai_engine (handle ev ed) = ai_engine ed
  ∧ ai_enabled_var (handle ev ed) = ai_enabled_var ed.
Proof.
  intros Hui.
  assert (engine_view (handle ev ed) = engine_view ed) as H
    by by apply preserves_handle.
  by injection H.
Qed.

Lemma worker_without_engine now (respond : ChatRequest → ProviderOutcome) args ed :
  ai_engine ed = None → _get_completion_async now respond args ed = ([], ed).
Proof. intros He. unfold _get_completion_async. by rewrite He. Qed.

Lemma request_without_engine now ed :
  ai_engine ed = None → request_ai_completion now ed = (Ok None, ed).
Proof.
  intros He. unfold request_ai_completion, bind, gets. simpl. by rewrite He.
Qed.

Lemma handle_without_engine (ev : event W) ed :
  ai_engine ed = None → ai_engine (handle ev ed) = None.
Proof.
  intros He. destruct (ui_event ev) eqn:U.
  - destruct (ui_events_keep_engine ev ed U) as [-> _]. done.
  - destruct ev; try done. simpl. by rewrite worker_without_engine.
Qed.

Lemma run_without_engine (evs : list (event W)) ed :
  ai_engine ed = None → ai_engine (run evs ed) = None.
Proof.
  revert ed. induction evs as [|ev evs IH]; intros ed He; [done|].
  apply IH. by apply handle_without_engine.
Qed.

(** X15. An editor whose engine could not be set up (the configuration
    is not an object, the key is missing, false, the placeholder or a
    value without a length, or the constructor of the client raised)
    holds no engine and has completion switched off, and stays so whatever
    happens: no key ever schedules a completion request, a trigger returns
    at once and leaves the editor as it is, and a worker does nothing. *)
Theorem no_engine_no_request (OpenAI : json → bool) (w : W) (cfg : json)
    (evs : list (event W)) :
  _setup_openai_client OpenAI cfg ≠ ClientSet →
  ai_enabled_var (editor_new OpenAI w cfg) = false
  ∧ let ed := run evs (editor_new OpenAI w cfg) in
    ai_engine ed = None
    ∧ (∀ keysym, (on_text_change keysym ed).1 ≠ Ok true)
    ∧ (∀ now, request_ai_completion now ed = (Ok None, ed))
    ∧ (∀ now respond args, _get_completion_async now respond args ed = ([], ed)).
Proof.
  intros Hset.
  assert (ai_engine (editor_new OpenAI w cfg) = None
          ∧ ai_enabled_var (editor_new OpenAI w cfg) = false) as [He Hen].
  { unfold editor_new, engine_new.
    by destruct (as_dict cfg), (_setup_openai_client OpenAI cfg). }
  split; [done|]. intros ed.
  assert (ai_engine ed = None) as He' by by apply run_without_engine.
  split_and!; [done| | |].
  - intros keysym. unfold on_text_change, bind, ask, gets, ret.
    destruct (w_index _ _); simpl; [|done].
    destruct (w_get _ _ _); simpl; [|done].
    rewrite He'. by rewrite andb_false_r.
  - intros now. by apply request_without_engine.
  - intros now respond args. by apply worker_without_engine.
Qed.

(** X16. A trigger changes at most two fields of the editor: it leaves
    the editor as it is (no engine, completion off, or debounced), or
    stores its time as the time of the last request, or does that and
    sets the status to "Requesting AI completion..."; it starts a worker
    in the last case only.  The time is stored before the line checks, so
    a trigger rejected by them still opens a new debounce window. *)
Theorem trigger_changes_two_fields (now : float) ed :
  let out := request_ai_completion now ed in
  (out.2 = ed ∧ (out.1 = Ok None))
  ∨ (out.2 = with_last_completion_request now ed ∧ ∀ args, out.1 ≠ Ok (Some args))
  ∨ (out.2 = with_status (py "Requesting AI completion...")
               (with_last_completion_request now ed)
     ∧ ∃ args, out.1 = Ok (Some args)).
Proof.
  simpl. destruct (ai_engine ed) as [engine|] eqn:He;
    [|left; by rewrite request_without_engine].
  destruct (ai_enabled_var ed) eqn:Hen.
  2:{ left. unfold request_ai_completion, bind, gets. simpl.
      by rewrite He, Hen. }
  destruct ((now - last_completion_request ed <? 0.5)%float) eqn:Hq.
  { left. by rewrite (request_gate_closed ed now engine). }
  right. rewrite (request_gate_open ed now engine He Hen Hq).
  repeat case_match; simpl; first [by left | right; eauto].
Qed.

(** X17. The worker thread changes nothing of the editor but the
    engine: text widget, suggestion, status and debounce time are as
    before.  It schedules a completion for display only if
    [get_completion] returned one that is not blank, and then for the
    cursor position the request was issued at. *)
Theorem worker_only_touches_engine (now : float)
    (respond : ChatRequest → ProviderOutcome) (args : ThreadArgs) ed :
  let out := _get_completion_async now respond args ed in
  text_editor out.2 = text_editor ed
  ∧ suggestion out.2 = suggestion ed
  ∧ status_label out.2 = status_label ed
  ∧ last_completion_request out.2 = last_completion_request ed
  ∧ ai_enabled_var out.2 = ai_enabled_var ed
  ∧ ∀ c p, ShowCompletion c p ∈ out.1 →
      strip c ≠ [] ∧ p = arg_cursor_pos args
      ∧ ∃ e, ai_engine ed = Some e
             ∧ (get_completion now respond (arg_context_before args)
                  (arg_current_line args) (arg_context_after args) e).1
               = Ok (Some c).
Proof.
  simpl. unfold _get_completion_async.
  destruct (ai_engine ed) as [e|] eqn:He.
  2:{ split_and!; try done. by intros c p ?%elem_of_nil. }
  destruct (get_completion _ _ _ _ _ e) as [[completion|x] e'] eqn:G.
  2:{ split_and!; try done. by intros c p [=]%list_elem_of_singleton. }
  destruct (get_last_chat_info e') as [rp rt].
  split_and!; try done. intros c p Hin.
  apply elem_of_app in Hin as [Hin|Hin].
  { by destruct rp as [[|? ?]|]; [apply elem_of_nil in Hin
                                 |apply list_elem_of_singleton in Hin
                                 |apply elem_of_nil in Hin]. }
  apply elem_of_app in Hin as [Hin|Hin].
  { by destruct rt as [[|? ?]|]; [apply elem_of_nil in Hin
                                 |apply list_elem_of_singleton in Hin
                                 |apply elem_of_nil in Hin]. }
  destruct completion as [c'|]; [|by apply list_elem_of_singleton in Hin].
  destruct (strip c') eqn:S; apply list_elem_of_singleton in Hin; [done|].
  injection Hin as -> ->. split; [by rewrite S|]. split; [done|].
  exists e. by rewrite G.
Qed.

End SingleWriter.

(** ** The editor: keys, acceptance and the context window *)

Section Keys.
Context {W : Type} `{TW : TextWidget W}.
Implicit Types ed : CodeEditor W.

Lemma clear_never_raises ed : (clear_ghost_text ed).1 = Ok tt.
Proof.
  unfold clear_ghost_text.
  by destruct (ghost_text_start_pos ed), (current_completion ed).
Qed.

Lemma clear_inactive ed :
  suggestion_active ed = false → clear_ghost_text ed = (Ok tt, ed).
Proof.
  unfold clear_ghost_text, suggestion_active.
  by destruct (ghost_text_start_pos ed), (current_completion ed).
Qed.

Lemma clear_makes_inactive ed : suggestion_active (clear_ghost_text ed).2 = false.
Proof.
  unfold clear_ghost_text, suggestion_active.
  destruct (ghost_text_start_pos ed) eqn:G, (current_completion ed) eqn:C;
    simpl; rewrite ?G, ?C; done.
Qed.

Lemma arrow_key_facts (keysym : string) :
  bool_decide (keysym ∈ ["Up"; "Down"; "Left"; "Right"]%string) = true →
  bool_decide (String.length keysym = 1) = false
  ∧ bool_decide (keysym ∈ ["Return"; "BackSpace"; "Delete"; "space"]%string) = false.
Proof.
  intros H%bool_decide_eq_true.
  repeat (apply elem_of_cons in H as [->|H]); [by split..|].
  by apply elem_of_nil in H.
Qed.

(** What a key press does, key by key. *)
Lemma key_press_dismisses (keysym : string) ed :
  on_key_press keysym ed
  = if dismissing_key keysym then clear_ghost_text ed else (Ok tt, ed).
Proof.
  unfold on_key_press, dismissing_key. cbv zeta.
  destruct (bool_decide (keysym ∈ ["Up"; "Down"; "Left"; "Right"]%string)) eqn:A.
  - destruct (arrow_key_facts keysym A) as [-> ->]. simpl.
    unfold bind, gets, ret. simpl.
    destruct (suggestion_active ed) eqn:Act.
    + pose proof (clear_never_raises ed) as Hc.
      destruct (clear_ghost_text ed) as [[[]|x] ed']; simpl in *; [|done].
      by destruct (suggestion_active ed').
    + simpl. by rewrite clear_inactive.
  - simpl. unfold bind, gets, ret. simpl.
    repeat match goal with
           | |- context [bool_decide ?P] => destruct (bool_decide P)
           end; simpl; try done;
      destruct (suggestion_active ed) eqn:Act; simpl; try done;
      by rewrite clear_inactive.
Qed.

(** X18. A key press dismisses the suggestion, exactly as
    [clear_ghost_text] does, on the arrow keys and on the keys that change
    the content (a one-character key name, Return, BackSpace, Delete,
    space); on every other key (Home, End, Escape, Tab, the modifier and
    function keys, and any key not listed) it leaves the editor, and with
    it the suggestion, as it is.  It never raises. *)
Theorem key_press_dismisses_or_keeps (keysym : string) ed :
  on_key_press keysym ed
  = (if dismissing_key keysym then clear_ghost_text ed else (Ok tt, ed))
  ∧ (on_key_press keysym ed).1 = Ok tt
  ∧ (dismissing_key keysym = true →
     suggestion_active (on_key_press keysym ed).2 = false).
Proof.
  rewrite key_press_dismisses. split; [done|].
  destruct (dismissing_key keysym); split; try done.
  - apply clear_never_raises.
  - intros _. apply clear_makes_inactive.
Qed.

(** X19. [on_text_change] leaves the editor as it is.  It schedules a
    completion request only when completion is enabled, an engine exists
    and the key is none of Up, Down, Left, Right and Tab; and it does
    schedule one then, provided its two reads of the widget succeed.  So
    Home and End, which keep the suggestion, still ask for a completion. *)
Theorem text_change_schedules (keysym : string) ed :
  (on_text_change keysym ed).2 = ed
  ∧ ((on_text_change keysym ed).1 = Ok true →
     ai_enabled_var ed = true ∧ is_Some (ai_engine ed)
     ∧ keysym ∉ ["Up"; "Down"; "Left"; "Right"; "Tab"]%string)
  ∧ (∀ cursor_pos line,
       w_index (text_editor ed) INSERT = Some cursor_pos →
       w_get (text_editor ed) (At (Pos (pos_line cursor_pos) 0))
         (LineEnd (pos_line cursor_pos)) = Some line →
       ai_enabled_var ed = true → is_Some (ai_engine ed) →
       keysym ∉ ["Up"; "Down"; "Left"; "Right"; "Tab"]%string →
       (on_text_change keysym ed).1 = Ok true).
Proof.
  unfold on_text_change, bind, ask, gets, ret. split; [|split].
  - destruct (w_index _ _); simpl; [|done]. by destruct (w_get _ _ _).
  - destruct (w_index _ _); simpl; [|done].
    destruct (w_get _ _ _); simpl; [|done].
    intros [= H]. apply andb_true_iff in H as [[H1 H2]%andb_true_iff H3].
    split; [done|]. split; [by destruct (ai_engine ed)|].
    by apply negb_true_iff, bool_decide_eq_false in H3.
  - intros cursor_pos line -> . simpl. intros ->. simpl.
    intros -> [e ->] Hk. simpl. by rewrite bool_decide_eq_false_2.
Qed.

Lemma accept_inactive ed :
  suggestion_active ed = false → accept_completion ed = (Ok tt, ed).
Proof.
  unfold accept_completion, suggestion_active.
  by destruct (current_completion ed), (ghost_text_start_pos ed).
Qed.

Lemma accept_active ed :
  suggestion_active ed = true → (accept_completion ed).1 = Ok tt →
  suggestion (accept_completion ed).2 = (None, []).
Proof.
  unfold accept_completion, suggestion_active.
  destruct (ghost_text_start_pos ed) as [start|]; [|done].
  destruct (current_completion ed) as [|c cs]; [done|]. intros _.
  unfold bind, tell, modify, update_status. simpl.
  destruct (w_tag_remove _ _ _ _); simpl; [|done].
  by destruct (w_mark_set_insert _ _).
Qed.

(** X20. Once a completion is accepted, it stays: after an
    [accept_completion] that returns normally no suggestion is active, so
    that dismissal, a click and any key press leave the editor, and the
    accepted text in it, as they are.  With an active suggestion Tab is
    that acceptance, and returns "break". *)
Theorem accepted_text_stays ed :
  (accept_completion ed).1 = Ok tt →
  let ed' := (accept_completion ed).2 in
  suggestion_active ed' = false
  ∧ clear_ghost_text ed' = (Ok tt, ed')
  ∧ on_click ed' = (Ok tt, ed')
  ∧ (∀ keysym, on_key_press keysym ed' = (Ok tt, ed'))
  ∧ (suggestion_active ed = true →
     suggestion ed' = (None, []) ∧ on_tab_key ed = (Ok true, ed')).
Proof.
  intros Hok ed'.
  assert (suggestion_active ed' = false) as Hin.
  { destruct (suggestion_active ed) eqn:Act.
    - pose proof (accept_active ed Act Hok) as H. fold ed' in H.
      unfold suggestion in H. unfold suggestion_active.
      injection H as H1 H2. by rewrite H1.
    - unfold ed'. by rewrite accept_inactive. }
  split; [done|]. split; [by apply clear_inactive|].
  split; [by apply clear_inactive|]. split.
  - intros keysym. rewrite key_press_dismisses.
    destruct (dismissing_key keysym); [by apply clear_inactive|done].
  - intros Act. split; [by apply accept_active|].
    unfold on_tab_key, bind, gets, ret. simpl. rewrite Act. unfold ed'.
    by destruct (accept_completion ed) as [[[]|x] ed2]; simpl in *.
Qed.

(** X21. Dismissing twice is dismissing once: a second
    [clear_ghost_text], right after a first, changes nothing. *)
Theorem dismissal_idempotent ed :
  clear_ghost_text (clear_ghost_text ed).2 = (Ok tt, (clear_ghost_text ed).2).
Proof. apply clear_inactive, clear_makes_inactive. Qed.

(** The loop over the lines reads each of them from the widget and keeps
    the ones that are not blank. *)
Lemma collect_lines_reads (line_nums : list nat) ed (lines : list str) ed' :
  collect_lines line_nums ed = (Ok lines, ed') →
  ed' = ed
  ∧ ∃ reads,
      Forall2 (λ n l, w_get (text_editor ed) (At (Pos n 0)) (LineEnd n) = Some l)
        line_nums reads
      ∧ lines = filter (λ l, strip l ≠ []) reads.
Proof.
  revert lines ed'. induction line_nums as [|n ns IH]; intros lines ed'; simpl.
  - unfold ret. intros [= <- <-]. split; [done|]. exists []. by split; [constructor|].
  - unfold bind at 1. unfold ask at 1.
    destruct (w_get _ _ _) as [content|] eqn:G; [|done].
    unfold bind at 1.
    destruct (collect_lines ns ed) as [[ls|x] ed1]; [|done].
    destruct (IH _ _ eq_refl) as (-> & reads & HF & ->).
    unfold ret. intros [= <- <-]. split; [done|].
    exists (content :: reads). split; [by constructor|].
    rewrite filter_cons. destruct (strip content) eqn:S.
    + by rewrite decide_False by (intros H; by apply H).
    + by rewrite decide_True.
Qed.

(** X22. The context window, line by line.  The context before the
    cursor is made of the document lines from ten lines above the cursor
    (or from line 1) to the line above it: each is read from the widget,
    the blank ones are left out, and the others are joined by newlines, in
    order.  The context after the cursor is made in the same way of the
    lines from the one below the cursor to five lines below it (or to the
    last line).  So at most ten lines are read before and five after, and
    the slices [[-10:]] and [[:5]] of the code never cut anything off.
    Extracting the window leaves the editor as it is. *)
Theorem context_window_bounded ed (cursor_pos : position)
    (context_before current_line context_after : str) :
  w_index (text_editor ed) INSERT = Some cursor_pos →
  (get_context_around_cursor ed).1 = Ok (context_before, current_line, context_after) →
  let line := pos_line cursor_pos in
  let read n l := w_get (text_editor ed) (At (Pos n 0)) (LineEnd n) = Some l in
  (get_context_around_cursor ed).2 = ed
  ∧ ∃ (last : position) (lines_before lines_after : list str),
      w_index (text_editor ed) DocEndMinus1c = Some last
      ∧ Forall2 read (seq (max 1 (line - 10)) (line - max 1 (line - 10))) lines_before
      ∧ Forall2 read (seq (line + 1) (min (pos_line last) (line + 5) - line)) lines_after
      ∧ context_before = join [ newline ] (filter (λ l, strip l ≠ []) lines_before)
      ∧ context_after = join [ newline ] (filter (λ l, strip l ≠ []) lines_after)
      ∧ length lines_before ≤ 10 ∧ length lines_after ≤ 5.
Proof.
  intros Hc H line read. split; [apply is_query_context|]. revert H.
  unfold get_context_around_cursor. cbv zeta.
  unfold bind at 1. unfold ask at 1. rewrite Hc.
  unfold bind at 1. unfold gets at 1.
  unfold bind at 1.
  match goal with
  | |- context [match ?m ed with _ => _ end] =>
      assert (m ed = ((m ed).1, ed)) as Hq
        by (destruct (anchor_on_line _ _); unfold ask; by destruct (w_get _ _ _));
      rewrite Hq; destruct (m ed).1 as [cl|x]; [|done]
  end.
  unfold bind at 1.
  destruct (collect_lines _ ed) as [[lb|x] ed1] eqn:E1; [|done].
  apply collect_lines_reads in E1 as (-> & rb & Fb & ->).
  unfold bind at 1. unfold ask at 1.
  destruct (w_index (text_editor ed) DocEndMinus1c) as [q|]; [|done].
  unfold bind at 1.
  destruct (collect_lines _ ed) as [[la|x] ed2] eqn:E2; [|done].
  apply collect_lines_reads in E2 as (-> & ra & Fa & ->).
  unfold ret. simpl. intros [= <- <- <-].
  pose proof (Forall2_length _ _ _ Fb) as Lb. rewrite length_seq in Lb.
  pose proof (Forall2_length _ _ _ Fa) as La. rewrite length_seq in La.
  fold line in Lb, La.
  exists q, rb, ra. split_and!; [done|done|done| | |lia|lia].
  - pose proof (length_filter (λ l, strip l ≠ []) rb) as Hf.
    by replace (length (filter (λ l, strip l ≠ []) rb) - 10) with 0 by lia.
  - rewrite take_ge; [done|].
    pose proof (length_filter (λ l, strip l ≠ []) ra). lia.
Qed.

Lemma clear_suggestion ed :
  suggestion (clear_ghost_text ed).2 = suggestion ed
  ∨ suggestion (clear_ghost_text ed).2 = (None, []).
Proof.
  unfold clear_ghost_text.
  destruct (ghost_text_start_pos ed), (current_completion ed); simpl;
    first [by left | by right].
Qed.

(** X23. What [_show_completion] can do to the suggestion: leave it,
    clear it, or set it; and when it sets it, the cursor was at the
    position the request was made for, the anchor is that position, and
    the text shown is a suffix of the stripped completion that is not
    empty.  A blank completion is never shown. *)
Theorem shown_suggestion_is_suffix (completion : str) (cursor_pos : position) ed :
  let ed' := (_show_completion completion cursor_pos ed).2 in
  suggestion ed' = suggestion ed
  ∨ suggestion ed' = (None, [])
  ∨ (ghost_text_start_pos ed' = Some cursor_pos
     ∧ current_completion ed' ≠ []
     ∧ current_completion ed' `suffix_of` strip completion
     ∧ strip completion ≠ []
     ∧ w_index (text_editor ed) INSERT = Some cursor_pos).
Proof.
  simpl. remember (_show_completion completion cursor_pos ed) as out eqn:Hout.
  unfold _show_completion in Hout. cbv zeta in Hout.
  unfold bind at 1 in Hout. unfold ask at 1 in Hout.
  destruct (w_index (text_editor ed) INSERT) as [p|] eqn:Hi;
    [|subst out; by left].
  destruct (bool_decide (p = cursor_pos)) eqn:Hp; simpl in Hout;
    [|subst out; by left].
  apply bool_decide_eq_true in Hp as ->.
  unfold bind at 1 in Hout.
  pose proof (clear_never_raises ed) as Hok.
  pose proof (clear_suggestion ed) as Hmv.
  destruct (clear_ghost_text ed) as [r ed1]. simpl in Hok, Hmv. subst r.
  assert (suggestion ed1 = suggestion ed ∨ suggestion ed1 = (None, []) ∨
          (ghost_text_start_pos ed1 = Some cursor_pos
           ∧ current_completion ed1 ≠ []
           ∧ current_completion ed1 `suffix_of` strip completion
           ∧ strip completion ≠ []
           ∧ Some cursor_pos = Some cursor_pos)) as Hkeep
    by (destruct Hmv; [by left|by right; left]).
  destruct (strip completion) as [|c0 stripped] eqn:S; [by subst out|].
  unfold bind at 1 in Hout. unfold ask at 1 in Hout.
  destruct (w_get (text_editor ed1) _ _) as [line|]; [|by subst out].
  pose proof (trim_returns_suffix (default [] (last (split line))) (c0 :: stripped))
    as [Hsuf _].
  destruct (_trim_completion_overlap _ _) as [|t0 trimmed] eqn:T; [by subst out|].
  unfold bind at 1 in Hout. unfold tell at 1 in Hout.
  destruct (w_insert (text_editor ed1) _ _ _) as [w|]; [|by subst out].
  unfold bind, modify, tell, update_status, _update_ai_stats in Hout.
  simpl in Hout. right. right.
  destruct (w_mark_set_insert _ _); simpl in Hout; [|by subst out].
  subst out. simpl. by destruct (ai_engine ed1).
Qed.

End Keys.

Lemma accepted_text_stays_witness :
  suggestion_active (accept_completion editor_with_ghost).2 = false.
Proof.
  refine (proj1 (accepted_text_stays editor_with_ghost _)).
  vm_compute. reflexivity.
Defined.

Lemma context_window_bounded_witness :
  (get_context_around_cursor three_line_editor).2 = three_line_editor.
Proof.
  refine (proj1 (context_window_bounded three_line_editor (Pos 2 2)
                   (py "x") (py "ab") (py " y") _ _));
    vm_compute; reflexivity.
Defined.

(** ** The further properties at work *)

Lemma provider_calls_spaced_witness :
  _last_request_time first_request_engine = (10 * 1000)%float.
Proof.
  refine (proj1 (proj2 (provider_calls_spaced demo_engine 10 (answer "x = 1")
                          [] (py "a") [])) _).
  vm_compute. reflexivity.
Defined.

Lemma non_numeric_delay_raises_witness :
  let e := engine_init {[ "completion_delay_ms"%string := JStr (py "fast") ]} in
  get_completion 10 (answer "x = 1") [] (py "a") [] e = (Raise TypeError, reset_chat e).
Proof.
  refine (proj1 (non_numeric_delay_raises (W:=FlatText.t)
                   (engine_init {[ "completion_delay_ms"%string := JStr (py "fast") ]})
                   10 (answer "x = 1")
                   {| arg_context_before := []; arg_current_line := py "a";
                      arg_context_after := []; arg_cursor_pos := Pos 1 1 |} _)).
  vm_compute. reflexivity.
Defined.

Lemma no_client_no_call_witness :
  let e := {| config := ∅; client := false; _last_request_time := 0%float;
              _completion_cache := []; last_request_prompt := None;
              last_response := None; api_log := [] |} in
  (get_completion 10 (answer "x = 1") [] (py "a") [] e).1 = Ok None.
Proof.
  refine (proj1 (no_client_no_call
                   {| config := ∅; client := false; _last_request_time := 0%float;
                      _completion_cache := []; last_request_prompt := None;
                      last_response := None; api_log := [] |}
                   10 (answer "x = 1") [] (py "a") [] _ _ _));
    vm_compute; reflexivity.
Defined.

Lemma empty_answer_not_cached_witness :
  _completion_cache (get_completion 10 (λ _, PResponse [None]) [] (py "a") [] demo_engine).2
  = [].
Proof.
  refine (proj1 (proj2 (empty_answer_not_cached demo_engine 10 (λ _, PResponse [None])
                          [] (py "a") [] [None] _ _ _ _ _))).
  - vm_compute. reflexivity.
  - vm_compute. reflexivity.
  - reflexivity.
  - reflexivity.
  - right. left. by exists [].
Defined.

Lemma blank_answer_cached_as_empty_witness :
  (get_completion 10 (answer "   ") [] (py "a") [] demo_engine).1 = Ok (Some []).
Proof.
  refine (proj1 (blank_answer_cached_as_empty (W:=FlatText.t) demo_engine 10 (answer "   ")
                   {| arg_context_before := []; arg_current_line := py "a";
                      arg_context_after := []; arg_cursor_pos := Pos 1 1 |}
                   (py "   ") [] _ _ _ _ _ _)).
  - vm_compute. reflexivity.
  - vm_compute. reflexivity.
  - reflexivity.
  - reflexivity.
  - discriminate.
  - vm_compute. reflexivity.
Defined.

Lemma cached_completion_replayed_witness :
  (get_completion 11 failing [] (py " a ") [] first_request_engine).1
  = Ok (Some (strip (py "x = 1"))).
Proof.
  refine (proj1 (proj2 (cached_completion_replayed demo_engine 10 11
                          (answer "x = 1") failing
                          [] (py "a") [] [] (py " a ") [] (py "x = 1") []
                          _ _ _ _ _ _ _))).
  - vm_compute. reflexivity.
  - vm_compute. reflexivity.
  - reflexivity.
  - reflexivity.
  - discriminate.
  - vm_compute. reflexivity.
  - vm_compute. reflexivity.
Defined.

Lemma cache_keys_distinct_witness :
  NoDup (PyDict.keys (_completion_cache capacity_one_engine)).
Proof.
  exact (proj1 (cache_keys_distinct capacity_one_engine capacity_one_engine_reachable)).
Defined.

Lemma ui_events_keep_engine_witness :
  ai_engine (handle (EvKeyPress "a") editor_with_ghost) = ai_engine editor_with_ghost.
Proof.
  exact (proj1 (ui_events_keep_engine (EvKeyPress "a") editor_with_ghost eq_refl)).
Defined.

Lemma no_engine_no_request_witness :
  ai_enabled_var (editor_new (λ _, true) (FlatText.plain "ab" (Pos 1 2))
                    numeric_key_config) = false.
Proof.
  refine (proj1 (no_engine_no_request (λ _, true) (FlatText.plain "ab" (Pos 1 2))
                   numeric_key_config [EvKeyPress "a"; EvTrigger 10] _)).
  vm_compute. discriminate.
Defined.

(** ** File commands *)

Section Files.
Context {W : Type} `{TW : TextWidget W}.
Implicit Types ed : CodeEditor W.

Lemma guarded_never_raises {A} (m : M (W:=W) A) ed : ∃ r, (guarded m ed).1 = Ok r.
Proof. unfold guarded. destruct (m ed) as [[a|x] ed']; eauto. Qed.

(** X24. Saving and opening never raise.  What a successful save
    writes is the document as it stands once the save is over, read after
    the suggestion has been dismissed; and after a successful save, open
    or new-file command no suggestion is active. *)
Theorem file_commands_dismiss (file_path content : str) ed :
  (∃ r, (save_file file_path ed).1 = Ok r)
  ∧ (∃ r, (open_file file_path content ed).1 = Ok r)
  ∧ (∀ written, (save_file file_path ed).1 = Ok (Some written) →
       suggestion_active (save_file file_path ed).2 = false
       ∧ w_get (text_editor (save_file file_path ed).2) (At (Pos 1 0)) DocEndMinus1c
         = Some written)
  ∧ ((open_file file_path content ed).1 = Ok (Some tt) →
       suggestion_active (open_file file_path content ed).2 = false)
  ∧ ((new_file ed).1 = Ok tt → suggestion_active (new_file ed).2 = false).
Proof.
  split; [apply guarded_never_raises|]. split; [apply guarded_never_raises|].
  split; [|split].
  - intros written.
    remember (save_file file_path ed) as out eqn:Hout.
    unfold save_file, guarded in Hout.
    unfold bind at 1 in Hout. unfold ask at 1 in Hout.
    destruct (w_get (text_editor ed) (At (Pos 1 0)) DocEndMinus1c) as [c0|] eqn:G0;
      [|subst out; done].
    unfold bind at 1 in Hout. unfold gets at 1 in Hout.
    destruct (ghost_text_start_pos ed) as [g|] eqn:Hg.
    + unfold bind at 1 in Hout. unfold bind at 1 in Hout.
      unfold ask at 1 in Hout.
      destruct (w_index (text_editor ed) INSERT) as [p|]; [|subst out; done].
      unfold bind at 1 in Hout.
      pose proof (clear_never_raises ed) as Hok.
      pose proof (clear_makes_inactive ed) as Hin.
      destruct (clear_ghost_text ed) as [r ed1]. simpl in Hok, Hin. subst r.
      unfold bind at 1 in Hout. unfold tell at 1 in Hout.
      destruct (w_mark_set_insert (text_editor ed1) (At p)) as [w2|];
        [|subst out; done].
      unfold ask at 1 in Hout. simpl in Hout.
      destruct (w_get w2 (At (Pos 1 0)) DocEndMinus1c) as [c1|] eqn:G1;
        [|subst out; done].
      unfold bind, update_status, modify, ret in Hout. simpl in Hout.
      subst out. simpl. intros [= <-]. by split.
    + unfold bind, update_status, modify, ret in Hout. simpl in Hout.
      subst out. simpl. intros [= <-]. split; [|done].
      unfold suggestion_active. simpl. by rewrite Hg.
  - remember (open_file file_path content ed) as out eqn:Hout.
    unfold open_file, guarded in Hout.
    unfold bind at 1 in Hout. unfold tell at 1 in Hout.
    destruct (w_delete (text_editor ed) _ _) as [w1|]; [|subst out; done].
    unfold bind at 1 in Hout. unfold tell at 1 in Hout. simpl in Hout.
    destruct (w_insert w1 _ _ _) as [w2|]; [|subst out; done].
    unfold bind at 1 in Hout.
    pose proof (clear_never_raises (with_text_editor w2 (with_text_editor w1 ed))) as Hok.
    pose proof (clear_makes_inactive (with_text_editor w2 (with_text_editor w1 ed))) as Hin.
    destruct (clear_ghost_text _) as [r ed1]. simpl in Hok, Hin. subst r.
    unfold bind at 1 in Hout. unfold ask at 1 in Hout.
    destruct (w_index (text_editor ed1) DocEndMinus1c); [|subst out; done].
    unfold update_status, modify in Hout. subst out. simpl. done.
  - remember (new_file ed) as out eqn:Hout.
    unfold new_file in Hout.
    unfold bind at 1 in Hout. unfold tell at 1 in Hout.
    destruct (w_delete (text_editor ed) _ _) as [w1|]; [|subst out; done].
    unfold bind at 1 in Hout.
    pose proof (clear_never_raises (with_text_editor w1 ed)) as Hok.
    pose proof (clear_makes_inactive (with_text_editor w1 ed)) as Hin.
    destruct (clear_ghost_text _) as [r ed1]. simpl in Hok, Hin. subst r.
    unfold update_status, modify in Hout. subst out. simpl. done.
Qed.

End Files.
